(** * ConvoScope backend: job orchestration and result cache

    A shallow embedding of [backend/config.py], [backend/services/cache_service.py]
    and [backend/services/analyzer_service.py], with the properties of the
    job life cycle, of the worker and of the cache that the natural-language
    specification states.

    Conventions.
    - Python [str] is [string]; Python [int] is [Z]; a Python dict used as a
      map is a [gmap].
    - Python objects are references: jobs live in an object store and the
      registry and the queue hold addresses into it.
    - External collaborators (the operating system, the [json] module, the
      clock, [uuid4], the analyzer of [src.advanced_analyzer], socket.io) are
      not part of the repository; what they answer is an input of the model,
      and what the code asks of them is recorded in a list of effects. *)

From Stdlib Require Import ZArith Lia String Ascii List.
From stdpp Require Import gmap strings list fin_maps pretty sorting.

Set Warnings "-register-all".
Open Scope Z_scope.

(** ** Python exceptions *)

Module Py.

Inductive exn : Type := Exception (msg : string).

(** [str(e)] *)
Definition str (e : exn) : string := match e with Exception msg => msg end.

Inductive result (A : Type) : Type :=
| Return (a : A)
| Raise (e : exn).
Arguments Return {A} a.
Arguments Raise {A} e.

(** Python data as far as the backend builds, stores and returns it: the
    JSON-like values, and [PyObject] for any object that [json] cannot
    serialise (a [datetime], a [set], ...), named by its type. *)
Inductive value : Type :=
| PyNone
| PyBool (b : bool)
| PyInt (z : Z)
| PyStr (s : string)
| PyList (l : list value)
| PyDict (l : list (string * value))
| PyObject (type_name : string).

End Py.
Export Py.

(** ** backend/config.py *)

Module Config.

Record Config : Type := mkConfig {
  MAX_CONTENT_LENGTH : Z;
  MAX_CONCURRENT_JOBS : Z;
  JOB_TIMEOUT : Z;
  CACHE_MAX_SIZE : Z;
  FILE_RETENTION_HOURS : Z
}.

(** The class attributes of [Config]; [DevelopmentConfig] and
    [ProductionConfig] inherit every field used here. *)
Definition default : Config := {|
  MAX_CONTENT_LENGTH := 100 * 1024 * 1024;
  MAX_CONCURRENT_JOBS := 2;
  JOB_TIMEOUT := 600;
  CACHE_MAX_SIZE := 1024 * 1024 * 1024;
  FILE_RETENTION_HOURS := 24
|}.

End Config.

(** ** backend/services/cache_service.py *)

Module Cache.

(** The cache directory and the logger, as far as [CacheService] touches
    them: the regular files of [cache_dir] by path relative to it, and the
    records logged so far. The service puts nothing but regular files
    there. *)
Inductive level : Type := INFO | ERROR.

Record World : Type := mkWorld {
  files : gmap string string;
  logs : list (level * string)
}.

(** What the operating system answers to [cache_file.exists()], to
    [open(cache_file, 'r')] and to the read that follows. [exists()]
    answers [False] for an entry that is not there and raises every other
    error of [stat]: a name that is too long, a directory that may not be
    searched. *)
Inductive os_read : Type :=
| ReadOk
| ExistsFails (e : exn)
| OpenReadFails (e : exn)
| ReadFails (e : exn).

(** What the operating system answers to [open(cache_file, 'w')] and to the
    writes that follow: [WriteFails n e] raises [e] once [n] characters
    have reached the file. *)
Inductive os_write : Type :=
| WriteOk
| OpenFails (e : exn)
| WriteFails (n : nat) (e : exn).

(** What the operating system answers to [cache_file.exists()] and to
    [cache_file.unlink()] in [delete]: it can refuse to remove an entry
    that is there (no permission, a directory under that name). *)
Inductive os_delete : Type :=
| DeleteOk
| DeleteExistsFails (e : exn)
| UnlinkFails (e : exn).

(** Statements that read and write the world and may raise. An exception
    does not undo what was written before it. *)
Definition IO (A : Type) : Type := World → result A * World.

#[global] Instance IO_ret : MRet IO := λ A a w, (Return a, w).

#[global] Instance IO_bind : MBind IO := λ A B k c w,
  match c w with
  | (Return a, w') => k a w'
  | (Raise e, w') => (Raise e, w')
  end.

Definition raise {A} (e : exn) : IO A := λ w, (Raise e, w).

(** [try: body  except Exception as e: handler] *)
Definition try_except {A} (body : IO A) (handler : exn → IO A) : IO A := λ w,
  match body w with
  | (Return a, w') => (Return a, w')
  | (Raise e, w') => handler e w'
  end.

Definition logger (l : level) (msg : string) : IO unit := λ w,
  (Return (), {| files := files w; logs := logs w ++ [(l, msg)] |}).

Definition set_file (name text : string) : IO unit := λ w,
  (Return (), {| files := <[name := text]> (files w); logs := logs w |}).

(** [cache_file.exists()]; [fails] is the error of [stat] that it raises,
    if any. *)
Definition exists_ (fails : option exn) (name : string) : IO bool :=
  match fails with
  | Some e => raise e
  | None => λ w, (Return (bool_decide (is_Some (files w !! name))), w)
  end.

(** [cache_file.unlink()]; [refused] is the error with which the operating
    system refuses, if it does. What is not among the files cannot be
    unlinked: there is no such entry, or it is a directory. *)
Definition unlink (refused : option exn) (name : string) : IO unit :=
  match refused with
  | Some e => raise e
  | None => λ w,
      match files w !! name with
      | Some _ => (Return (), {| files := delete name (files w); logs := logs w |})
      | None => (Raise (Exception "No such file or directory"), w)
      end
  end.

(** [open(cache_file, 'r')] *)
Definition open_read (os : os_read) (name : string) : IO unit := λ w,
  match os, files w !! name with
  | OpenReadFails e, _ => (Raise e, w)
  | _, None => (Raise (Exception "No such file or directory"), w)
  | _, Some _ => (Return (), w)
  end.

(** Reading the whole file opened by [open_read]. *)
Definition read (os : os_read) (name : string) : IO string := λ w,
  match os, files w !! name with
  | ReadFails e, _ => (Raise e, w)
  | _, Some text => (Return text, w)
  | _, None => (Raise (Exception "No such file or directory"), w)
  end.

(** [open(cache_file, 'w')]: creates the file or truncates it. *)
Definition open_write (os : os_write) (name : string) : IO unit :=
  match os with
  | OpenFails e => raise e
  | _ => set_file name EmptyString
  end.

(** Writing [text] to the file opened by [open_write]. *)
Definition write (os : os_write) (name text : string) : IO unit :=
  match os with
  | WriteFails n e => set_file name (substring 0 n text) ;; raise e
  | _ => set_file name text
  end.

(** [self.cache_dir / f"{file_hash}.json"], relative to [cache_dir], for
    a [file_hash] that is a plain name, as a digest is. For a [file_hash]
    with a slash in it [pathlib] rewrites the path ([./d1] is [d1]) and the
    file can lie in another directory: two such strings can name one file,
    and what is stated about the files of two digests is stated for
    digests without a slash. *)
Definition cache_file (file_hash : string) : string := file_hash +:+ ".json".

Fixpoint has_slash (s : string) : bool :=
  match s with
  | EmptyString => false
  | String c r => if Ascii.eqb c "/" then true else has_slash r
  end.

Fixpoint ends_with_json (s : string) : bool :=
  match s with
  | EmptyString => false
  | String _ r => if String.eqb s ".json" then true else ends_with_json r
  end.

(** The entries [self.cache_dir.glob("*.json")] yields: the direct children
    of [cache_dir] whose name ends in [.json]. *)
Definition glob_json (name : string) : bool :=
  ends_with_json name && negb (has_slash name).

Section WithJson.

(** The [json] module of the Python standard library. [json_dump v] is the
    text that [json.dump(v, f)] writes to [f], with the exception it raises
    if [v] holds something it cannot serialise (the text written up to
    there stays in the file). [json_load text] is what [json.load(f)]
    returns on a file holding [text]. *)
Context {Value : Type}.
Variable json_dump : Value → string * option exn.
Variable json_load : string → result Value.

(** [CacheService.get]. [None] is Python's [None]. *)
Definition get (os : os_read) (file_hash : string) : IO (option Value) :=
  let cache_file := cache_file file_hash in
  ex ← exists_ (match os with ExistsFails e => Some e | _ => None end) cache_file;
  if ex : bool then
    try_except
      (open_read os cache_file ;;
       logger INFO ("Cache hit for " +:+ file_hash) ;;
       text ← read os cache_file;
       match json_load text with
       | Return v => mret (Some v)
       | Raise e => raise e
       end)
      (λ e, logger ERROR ("Error reading cache: " +:+ str e) ;; mret None)
  else
    logger INFO ("Cache miss for " +:+ file_hash) ;; mret None.

(** [CacheService.set] *)
Definition set (os : os_write) (file_hash : string) (results : Value) : IO unit :=
  let cache_file := cache_file file_hash in
  try_except
    (open_write os cache_file ;;
     (let '(text, err) := json_dump results in
      write os cache_file text ;;
      match err with
      | Some e => raise e
      | None => mret ()
      end) ;;
     logger INFO ("Cached results for " +:+ file_hash))
    (λ e, logger ERROR ("Error writing cache: " +:+ str e)).

End WithJson.

(** [CacheService.delete]: nothing in it is caught. *)
Definition delete (os : os_delete) (file_hash : string) : IO unit :=
  let cache_file := cache_file file_hash in
  ex ← exists_ (match os with DeleteExistsFails e => Some e | _ => None end) cache_file;
  if ex : bool then
    unlink (match os with UnlinkFails e => Some e | _ => None end) cache_file ;;
    logger INFO ("Deleted cache for " +:+ file_hash)
  else mret ().

(** [listing] can be what [self.cache_dir.glob("*.json")] yields on a
    directory that holds the files of [w]: names that [glob_json] matches,
    each once, in the order of the operating system, and among them every
    file of [w] with such a name. A name listed that is not a file of [w]
    is a directory. *)
Definition lists_json (w : World) (listing : list string) : Prop :=
  NoDup listing
  ∧ (∀ name, name ∈ listing → glob_json name = true)
  ∧ (∀ name, is_Some (files w !! name) → glob_json name = true → name ∈ listing).

(** [for cache_file in ...: cache_file.unlink()] over the entries that the
    generator yields; [refused name] is the error with which the operating
    system refuses to remove [name], if it does. The first error ends the
    loop. *)
Fixpoint unlink_each (refused : string → option exn) (listing : list string) : IO unit :=
  match listing with
  | [] => mret ()
  | name :: rest => unlink (refused name) name ;; unlink_each refused rest
  end.

(** [CacheService.clear_all]: nothing in it is caught. *)
Definition clear_all (refused : string → option exn) (listing : list string) : IO unit :=
  unlink_each refused listing ;; logger INFO "Cleared all cache".

(** [CacheService.get_size] *)
Definition get_size (w : World) : Z :=
  map_fold (λ name text acc, if glob_json name then Z.of_nat (String.length text) + acc else acc)
           0 (files w).

End Cache.

(** ** A [json] codec

    A model of [json.dump] and [json.load] on [Py.value], restricted to
    printable ASCII strings. The cache is verified for any codec; this one
    runs it on concrete values. *)

Module MiniJson.

Definition dquote : ascii := ascii_of_nat 34.
Definition backslash : ascii := ascii_of_nat 92.

Fixpoint escape (s : string) : string :=
  match s with
  | EmptyString => EmptyString
  | String c r =>
      if Ascii.eqb c dquote || Ascii.eqb c backslash
      then String backslash (String c (escape r))
      else String c (escape r)
  end.

Definition quote (s : string) : string :=
  String dquote (escape s +:+ String dquote EmptyString).

(** The chunks [json.dump] writes, in order, until the first value that
    cannot be serialised. *)
Fixpoint dump (v : value) : string * option exn :=
  match v with
  | PyNone => ("null", None)
  | PyBool true => ("true", None)
  | PyBool false => ("false", None)
  | PyInt z => (pretty z, None)
  | PyStr s => (quote s, None)
  | PyList l =>
      let fix items (first : bool) (l : list value) : string * option exn :=
        match l with
        | [] => ("]", None)
        | x :: r =>
            let sep := if first then EmptyString else ", " in
            let '(t, err) := dump x in
            match err with
            | Some e => (sep +:+ t, Some e)
            | None => let '(t', err') := items false r in (sep +:+ t +:+ t', err')
            end
        end in
      let '(t, err) := items true l in ("[" +:+ t, err)
  | PyDict l =>
      let fix members (first : bool) (l : list (string * value)) : string * option exn :=
        match l with
        | [] => ("}", None)
        | (k, x) :: r =>
            let sep := if first then EmptyString else ", " in
            let '(t, err) := dump x in
            match err with
            | Some e => (sep +:+ quote k +:+ ": " +:+ t, Some e)
            | None =>
                let '(t', err') := members false r in
                (sep +:+ quote k +:+ ": " +:+ t +:+ t', err')
            end
        end in
      let '(t, err) := members true l in ("{" +:+ t, err)
  | PyObject type_name =>
      (EmptyString, Some (Exception ("Object of type " +:+ type_name +:+ " is not JSON serializable")))
  end.

Fixpoint skip_ws (s : string) : string :=
  match s with
  | String c r => if Ascii.eqb c " " then skip_ws r else s
  | EmptyString => s
  end.

Fixpoint strip_prefix (p s : string) : option string :=
  match p, s with
  | EmptyString, _ => Some s
  | String a p', String b s' => if Ascii.eqb a b then strip_prefix p' s' else None
  | String _ _, EmptyString => None
  end.

(** The characters of a string literal after its opening quote. *)
Fixpoint parse_chars (s : string) : option (string * string) :=
  match s with
  | EmptyString => None
  | String c r =>
      if Ascii.eqb c dquote then Some (EmptyString, r)
      else if Ascii.eqb c backslash then
        match r with
        | String c2 r2 =>
            if Ascii.eqb c2 dquote || Ascii.eqb c2 backslash
            then '(t, rest) ← parse_chars r2; Some (String c2 t, rest)
            else None
        | EmptyString => None
        end
      else '(t, rest) ← parse_chars r; Some (String c t, rest)
  end.

Definition digit (c : ascii) : option Z :=
  let n := nat_of_ascii c in
  if (48 <=? n)%nat && (n <=? 57)%nat then Some (Z.of_nat (n - 48)) else None.

Fixpoint parse_digits (acc : Z) (s : string) : Z * string :=
  match s with
  | String c r =>
      match digit c with
      | Some d => parse_digits (10 * acc + d) r
      | None => (acc, s)
      end
  | EmptyString => (acc, s)
  end.

Definition parse_int (s : string) : option (Z * string) :=
  match s with
  | String c r =>
      if Ascii.eqb c "-" then
        match r with
        | String c2 _ =>
            match digit c2 with
            | Some _ => let '(z, rest) := parse_digits 0 r in Some (- z, rest)
            | None => None
            end
        | EmptyString => None
        end
      else
        match digit c with
        | Some _ => Some (parse_digits 0 s)
        | None => None
        end
  | EmptyString => None
  end.

Section Sequences.

Variable parse_value : string → option (value * string).

Fixpoint parse_items (fuel : nat) (s : string) : option (list value * string) :=
  match fuel with
  | O => None
  | S fuel =>
      '(v, r) ← parse_value s;
      match skip_ws r with
      | String c r' =>
          if Ascii.eqb c "," then
            '(vs, r'') ← parse_items fuel (skip_ws r'); Some (v :: vs, r'')
          else if Ascii.eqb c "]" then Some ([v], r')
          else None
      | EmptyString => None
      end
  end.

Fixpoint parse_members (fuel : nat) (s : string) : option (list (string * value) * string) :=
  match fuel with
  | O => None
  | S fuel =>
      match s with
      | String q r0 =>
          if Ascii.eqb q dquote then
            '(k, r1) ← parse_chars r0;
            match skip_ws r1 with
            | String c r2 =>
                if Ascii.eqb c ":" then
                  '(v, r3) ← parse_value (skip_ws r2);
                  match skip_ws r3 with
                  | String c' r4 =>
                      if Ascii.eqb c' "," then
                        '(kvs, r5) ← parse_members fuel (skip_ws r4);
                        Some ((k, v) :: kvs, r5)
                      else if Ascii.eqb c' "}" then Some ([(k, v)], r4)
                      else None
                  | EmptyString => None
                  end
                else None
            | EmptyString => None
            end
          else None
      | EmptyString => None
      end
  end.

End Sequences.

Fixpoint parse_value (fuel : nat) (s : string) : option (value * string) :=
  match fuel with
  | O => None
  | S fuel =>
      match s with
      | EmptyString => None
      | String c r =>
          if Ascii.eqb c dquote then
            '(t, rest) ← parse_chars r; Some (PyStr t, rest)
          else if Ascii.eqb c "[" then
            match skip_ws r with
            | String c' r' =>
                if Ascii.eqb c' "]" then Some (PyList [], r')
                else '(vs, rest) ← parse_items (parse_value fuel) fuel (skip_ws r);
                     Some (PyList vs, rest)
            | EmptyString => None
            end
          else if Ascii.eqb c "{" then
            match skip_ws r with
            | String c' r' =>
                if Ascii.eqb c' "}" then Some (PyDict [], r')
                else '(kvs, rest) ← parse_members (parse_value fuel) fuel (skip_ws r);
                     Some (PyDict kvs, rest)
            | EmptyString => None
            end
          else
            match strip_prefix "null" s, strip_prefix "true" s, strip_prefix "false" s with
            | Some rest, _, _ => Some (PyNone, rest)
            | _, Some rest, _ => Some (PyBool true, rest)
            | _, _, Some rest => Some (PyBool false, rest)
            | None, None, None => '(z, rest) ← parse_int s; Some (PyInt z, rest)
            end
      end
  end.

Definition load (text : string) : result value :=
  match parse_value (S (String.length text)) (skip_ws text) with
  | Some (v, rest) =>
      match skip_ws rest with
      | EmptyString => Return v
      | String _ _ => Raise (Exception "Extra data")
      end
  | None => Raise (Exception "Expecting value")
  end.

End MiniJson.


(** ** backend/services/analyzer_service.py *)

Module Analyzer.

Abbreviation Options := (gmap string bool).

(** [class AnalysisJob] *)
Record AnalysisJob : Type := mkJob {
  job_id : string;
  file_path : string;
  options : Options;
  status : string;
  progress : Z;
  current_step : string;
  results : option value;
  error : option string;
  created_at : Z;
  started_at : option Z;
  completed_at : option Z
}.

(** [AnalysisJob.__init__] *)
Definition new_job (job_id file_path : string) (options : Options) (now : Z) : AnalysisJob := {|
  job_id := job_id;
  file_path := file_path;
  options := options;
  status := "pending";
  progress := 0;
  current_step := EmptyString;
  results := None;
  error := None;
  created_at := now;
  started_at := None;
  completed_at := None
|}.

Definition set_status (v : string) (j : AnalysisJob) : AnalysisJob :=
  mkJob (job_id j) (file_path j) (options j) v (progress j) (current_step j)
        (results j) (error j) (created_at j) (started_at j) (completed_at j).

Definition set_progress (v : Z) (j : AnalysisJob) : AnalysisJob :=
  mkJob (job_id j) (file_path j) (options j) (status j) v (current_step j)
        (results j) (error j) (created_at j) (started_at j) (completed_at j).

Definition set_current_step (v : string) (j : AnalysisJob) : AnalysisJob :=
  mkJob (job_id j) (file_path j) (options j) (status j) (progress j) v
        (results j) (error j) (created_at j) (started_at j) (completed_at j).

Definition set_results (v : option value) (j : AnalysisJob) : AnalysisJob :=
  mkJob (job_id j) (file_path j) (options j) (status j) (progress j) (current_step j)
        v (error j) (created_at j) (started_at j) (completed_at j).

Definition set_error (v : option string) (j : AnalysisJob) : AnalysisJob :=
  mkJob (job_id j) (file_path j) (options j) (status j) (progress j) (current_step j)
        (results j) v (created_at j) (started_at j) (completed_at j).

Definition set_started_at (v : option Z) (j : AnalysisJob) : AnalysisJob :=
  mkJob (job_id j) (file_path j) (options j) (status j) (progress j) (current_step j)
        (results j) (error j) (created_at j) v (completed_at j).

Definition set_completed_at (v : option Z) (j : AnalysisJob) : AnalysisJob :=
  mkJob (job_id j) (file_path j) (options j) (status j) (progress j) (current_step j)
        (results j) (error j) (created_at j) (started_at j) v.


(** A pandas [DataFrame] as far as [_run_analysis] looks at it: [len(df)],
    and what the dict display of lines 151-164 evaluates to on it (the
    results, or the exception pandas raises on the way). *)
Record DataFrame : Type := mkDataFrame {
  len : N;
  summary : result value
}.

(** What the collaborators answer while a worker takes one step: the
    clock, the import of [src.advanced_analyzer], and the three calls on
    the analyzer of the document at a path. *)
Record Env : Type := mkEnv {
  now : Z;
  import_analyzer : result unit;
  AdvancedConversationAnalyzer : string → bool → bool → bool → bool → result unit;
  load_data : string → result unit;
  parse_conversations_advanced : string → result DataFrame
}.

(** What the service asks of its collaborators: socket.io events with
    their room, and the calls on the analyzer. *)
Inductive Effect : Type :=
| emit_progress (job_id : string) (progress : Z) (message status room : string)
| emit_complete (job_id status room : string)
| emit_error (job_id error status room : string)
| call_import
| call_init (file_path : string) (privacy quality temporal visualizations : bool)
| call_load_data (file_path : string)
| call_parse (file_path : string).

(** Where a worker thread stands in [_process_jobs] and, inside it, in
    [_run_analysis] on the job at an address. A step of a thread runs from
    one of these points to the next. The points lie where the thread
    calls out of the service (the queue, the clock, the analyzer) and
    where it enters [_run_analysis], so that the states another thread can
    see in between are states of the model: a job that has passed the
    test of line 109 and is not yet marked, a job in processing without
    [started_at], a complete job still at 70, a failed job without
    [completed_at]. The assignments between two points are one step, and
    so is the event emitted after them. *)
Inductive Thread : Type :=
| AtLoop                               (* line 106: while self.running *)
| InQueueGet                           (* line 108: job_queue.get(timeout=1) *)
| AtProcessing (job : nat)             (* line 119: job.status = 'processing' *)
| AtStarted (job : nat)                (* line 120: datetime.now() *)
| AtImport (job : nat)                 (* line 124 *)
| AtConstruct (job : nat)              (* line 130 *)
| AtLoadData (job : nat)               (* line 139 *)
| AtEmit25 (job : nat)                 (* line 143 *)
| AtParse (job : nat)                  (* line 146 *)
| AtResults (job : nat) (df : DataFrame) (* line 151 *)
| AtCompleted (job : nat)              (* line 167: datetime.now() *)
| InExcept (job : nat) (e : exn)       (* line 173 *)
| AtFailed (job : nat) (e : exn)       (* line 177: datetime.now() *)
| Exited.                              (* line 114 *)

(** [class AnalyzerService]. [jobs] is the store of [AnalysisJob] objects;
    [active_jobs] and [job_queue] hold addresses into it. [threads] are the
    threads started so far and [worker_thread] is the latest one. *)
Record AnalyzerService : Type := mkService {
  config : Config.Config;
  effects : list Effect;
  jobs : list AnalysisJob;
  job_queue : list nat;
  active_jobs : gmap string nat;
  threads : list Thread;
  worker_thread : option nat;
  running : bool
}.

(** [AnalyzerService.__init__] *)
Definition init (config : Config.Config) : AnalyzerService := {|
  config := config;
  effects := [];
  jobs := [];
  job_queue := [];
  active_jobs := ∅;
  threads := [];
  worker_thread := None;
  running := false
|}.

Definition with_jobs (v : list AnalysisJob) (s : AnalyzerService) : AnalyzerService :=
  mkService (config s) (effects s) v (job_queue s) (active_jobs s) (threads s)
            (worker_thread s) (running s).

Definition with_job_queue (v : list nat) (s : AnalyzerService) : AnalyzerService :=
  mkService (config s) (effects s) (jobs s) v (active_jobs s) (threads s)
            (worker_thread s) (running s).

Definition with_threads (v : list Thread) (s : AnalyzerService) : AnalyzerService :=
  mkService (config s) (effects s) (jobs s) (job_queue s) (active_jobs s) v
            (worker_thread s) (running s).

(** One effect more. *)
Definition perform (e : Effect) (s : AnalyzerService) : AnalyzerService :=
  mkService (config s) (effects s ++ [e]) (jobs s) (job_queue s) (active_jobs s)
            (threads s) (worker_thread s) (running s).

(** Assignments to the fields of the job object at address [a]. *)
Definition update (a : nat) (f : AnalysisJob → AnalysisJob) (s : AnalyzerService)
  : AnalyzerService :=
  with_jobs (alter f a (jobs s)) s.

(** [AnalyzerService.start] *)
Definition start (s : AnalyzerService) : AnalyzerService :=
  if running s then s
  else mkService (config s) (effects s) (jobs s) (job_queue s) (active_jobs s)
                 (threads s ++ [AtLoop]) (Some (length (threads s))) true.

(** [AnalyzerService.stop]; the [join] only waits. *)
Definition stop (s : AnalyzerService) : AnalyzerService :=
  mkService (config s) (effects s) (jobs s) (job_queue s) (active_jobs s)
            (threads s) (worker_thread s) false.

(** [AnalyzerService.create_job]; [uuid] is what [uuid4] answers. *)
Definition create_job (uuid : string) (now : Z) (file_path : string) (options : Options)
    (s : AnalyzerService) : string * AnalyzerService :=
  let job_id := uuid in
  let job := length (jobs s) in
  let s := mkService (config s) (effects s) (jobs s ++ [new_job job_id file_path options now])
                     (job_queue s ++ [job]) (<[job_id := job]> (active_jobs s))
                     (threads s) (worker_thread s) (running s) in
  (job_id, if running s then s else start s).

(** [AnalyzerService.get_job] *)
Definition get_job (job_id : string) (s : AnalyzerService) : option AnalysisJob :=
  a ← active_jobs s !! job_id; jobs s !! a.

(** [AnalyzerService.cancel_job] *)
Definition cancel_job (job_id : string) (s : AnalyzerService) : bool * AnalyzerService :=
  match active_jobs s !! job_id with
  | Some a =>
      match jobs s !! a with
      | Some job =>
          if bool_decide (status job ∈ ["pending"; "processing"]) then
            (true, update a (λ j, set_error (Some "Cancelled by user") (set_status "failed" j)) s)
          else (false, s)
      | None => (false, s)
      end
  | None => (false, s)
  end.

(** [AnalyzerService._emit_progress] *)
Definition _emit_progress (a : nat) (progress : Z) (message : string) (s : AnalyzerService)
  : AnalyzerService :=
  let s := update a (λ j, set_current_step message (set_progress progress j)) s in
  match jobs s !! a with
  | Some job => perform (emit_progress (job_id job) progress message (status job) (job_id job)) s
  | None => s
  end.

(** [AnalyzerService._emit_complete] *)
Definition _emit_complete (a : nat) (s : AnalyzerService) : AnalyzerService :=
  match jobs s !! a with
  | Some job => perform (emit_complete (job_id job) "complete" (job_id job)) s
  | None => s
  end.

(** [AnalyzerService._emit_error] *)
Definition _emit_error (a : nat) (error : string) (s : AnalyzerService) : AnalyzerService :=
  match jobs s !! a with
  | Some job => perform (emit_error (job_id job) error "failed" (job_id job)) s
  | None => s
  end.

(** [f"{n:,}"] *)
Fixpoint group3 (k : nat) (rev_digits : list ascii) : list ascii :=
  match rev_digits with
  | [] => []
  | c :: r =>
      match k with
      | 3%nat => "," :: c :: group3 1 r
      | _ => c :: group3 (S k) r
      end
  end%char.

Definition format_commas (n : N) : string :=
  string_of_list_ascii (rev (group3 0 (rev (list_ascii_of_string (pretty n))))).

(** [options.get(key, default)] *)
Definition option_flag (o : Options) (key : string) (d : bool) : bool := default d (o !! key).

(** Thread [i] moves to point [t]. *)
Definition goto (i : nat) (t : Thread) (s : AnalyzerService) : AnalyzerService :=
  with_threads (<[i := t]> (threads s)) s.

(** [AnalyzerService._run_analysis], one step of thread [i] standing at
    point [t]. An exception raised inside the [try] takes the thread to
    [InExcept]; returning from the function takes it back to [AtLoop]. *)
Definition _run_analysis (env : Env) (i : nat) (t : Thread) (s : AnalyzerService)
  : AnalyzerService :=
  match t with
  | AtProcessing a =>
      goto i (AtStarted a) (update a (set_status "processing") s)
  | AtStarted a =>
      goto i (AtImport a) (update a (set_started_at (Some (now env))) s)
  | AtImport a =>
      let s := perform call_import s in
      match import_analyzer env with
      | Raise e => goto i (InExcept a e) s
      | Return _ => goto i (AtConstruct a) (_emit_progress a 5 "Loading data..." s)
      end
  | AtConstruct a =>
      match jobs s !! a with
      | Some job =>
          let privacy := option_flag (options job) "enable_privacy" true in
          let quality := option_flag (options job) "enable_quality" true in
          let temporal := option_flag (options job) "enable_temporal" true in
          let visualizations := option_flag (options job) "enable_visualizations" false in
          let s := perform (call_init (file_path job) privacy quality temporal visualizations) s in
          match AdvancedConversationAnalyzer env (file_path job)
                  privacy quality temporal visualizations with
          | Raise e => goto i (InExcept a e) s
          | Return _ => goto i (AtLoadData a) s
          end
      | None => s
      end
  | AtLoadData a =>
      match jobs s !! a with
      | Some job =>
          let s := perform (call_load_data (file_path job)) s in
          match load_data env (file_path job) with
          | Raise e => goto i (InExcept a e) s
          | Return _ => goto i (AtEmit25 a) (_emit_progress a 15 "Data loaded successfully" s)
          end
      | None => s
      end
  | AtEmit25 a =>
      goto i (AtParse a) (_emit_progress a 25 "Analyzing conversations..." s)
  | AtParse a =>
      match jobs s !! a with
      | Some job =>
          let s := perform (call_parse (file_path job)) s in
          match parse_conversations_advanced env (file_path job) with
          | Raise e => goto i (InExcept a e) s
          | Return df =>
              goto i (AtResults a df)
                   (_emit_progress a 70 ("Analyzed " +:+ format_commas (len df) +:+ " messages") s)
          end
      | None => s
      end
  | AtResults a df =>
      match summary df with
      | Raise e => goto i (InExcept a e) s
      | Return r =>
          goto i (AtCompleted a)
               (update a (λ j, set_status "complete" (set_results (Some r) j)) s)
      end
  | AtCompleted a =>
      let s := update a (λ j, set_progress 100 (set_completed_at (Some (now env)) j)) s in
      goto i AtLoop (_emit_complete a s)
  | InExcept a e =>
      goto i (AtFailed a e)
           (update a (λ j, set_error (Some (str e)) (set_status "failed" j)) s)
  | AtFailed a e =>
      let s := update a (set_completed_at (Some (now env))) s in
      goto i AtLoop (_emit_error a (str e) s)
  | AtLoop | InQueueGet | Exited => s
  end.

(** [AnalyzerService._process_jobs], one step of thread [i]. Taking a job
    off the queue and the test of line 109 are one step: between the two
    the thread holds the job without touching it, and the test, which
    only reads the status, sees a cancel that comes in between just as it
    sees one that came before the job was taken. The thread that has
    passed the test stands at line 119, and a request can reach the job
    before the thread marks it. *)
Definition _process_jobs (env : Env) (i : nat) (s : AnalyzerService) : AnalyzerService :=
  match threads s !! i with
  | Some AtLoop => goto i (if running s then InQueueGet else Exited) s
  | Some InQueueGet =>
      match job_queue s with
      | a :: q =>
          let s := with_job_queue q s in
          match jobs s !! a with
          | Some job =>
              if bool_decide (status job ≠ "failed") then goto i (AtProcessing a) s
              else goto i AtLoop s
          | None => goto i AtLoop s
          end
      | [] => goto i AtLoop s
      end
  | Some t => _run_analysis env i t s
  | None => s
  end.

(** The operations on a service: the three requests of the routes, start
    and stop, and a step of one of the worker threads. Each is taken as a
    whole; a thread can be overtaken by requests between any two of its
    steps. *)
Inductive Op : Type :=
| Create (uuid : string) (now : Z) (file_path : string) (options : Options)
| Cancel (job_id : string)
| Start
| Stop
| Work (i : nat) (env : Env).

Definition exec (s : AnalyzerService) (op : Op) : AnalyzerService :=
  match op with
  | Create uuid now file_path options => (create_job uuid now file_path options s).2
  | Cancel job_id => (cancel_job job_id s).2
  | Start => start s
  | Stop => stop s
  | Work i env => _process_jobs env i s
  end.

Definition run (s : AnalyzerService) (ops : list Op) : AnalyzerService :=
  fold_left exec ops s.

(** The same service under another configuration. *)
Definition with_config (c : Config.Config) (s : AnalyzerService) : AnalyzerService :=
  mkService c (effects s) (jobs s) (job_queue s) (active_jobs s) (threads s)
            (worker_thread s) (running s).

(** The calls of [parse_conversations_advanced], the analysis proper. *)
Definition is_call_parse (e : Effect) : bool :=
  match e with
  | call_parse _ => true
  | _ => false
  end.

(** The job a thread is working on. *)
Definition job_of (t : Thread) : option nat :=
  match t with
  | AtProcessing a | AtStarted a | AtImport a | AtConstruct a | AtLoadData a
  | AtEmit25 a | AtParse a | AtResults a _ | AtCompleted a | InExcept a _
  | AtFailed a _ => Some a
  | AtLoop | InQueueGet | Exited => None
  end.

End Analyzer.

(** ** The life cycle of a job

    The vocabulary in which the properties of the job registry are
    stated: who holds a job (the queue, a worker thread, nobody), what a
    job looks like in each case, and what one operation does to one job. *)

Module Lifecycle.
Import Analyzer.

(** Some worker thread is inside [_run_analysis] on the job at [a]. *)
Definition worked_on (s : AnalyzerService) (a : nat) : Prop :=
  ∃ i t, threads s !! i = Some t ∧ job_of t = Some a.

(** The changes of [status] the service is built for. *)
Definition edges : list (string * string) :=
  [ ("pending", "processing"); ("pending", "failed");
    ("processing", "failed"); ("processing", "complete") ].

(** The progress that [_emit_progress] assigns when a thread leaves [t]. *)
Definition next_progress (t : Thread) : option Z :=
  match t with
  | AtImport _ => Some 5
  | AtLoadData _ => Some 15
  | AtEmit25 _ => Some 25
  | AtParse _ => Some 70
  | _ => None
  end.

(** The progress of the job of a thread that stands at [t]. *)
Definition progress_at (t : Thread) (p : Z) : Prop :=
  match t with
  | AtProcessing _ | AtStarted _ | AtImport _ => p = 0
  | AtConstruct _ | AtLoadData _ => p = 5
  | AtEmit25 _ => p = 15
  | AtParse _ => p = 25
  | AtResults _ _ | AtCompleted _ => p = 70
  | InExcept _ _ | AtFailed _ _ => 0 ≤ p < 100
  | AtLoop | InQueueGet | Exited => False
  end.

(** Its status: pending until the thread marks it, complete once the
    thread has marked it so, and failed whenever it has been cancelled in
    between. *)
Definition status_at (t : Thread) (st : string) : Prop :=
  match t with
  | AtProcessing _ => st = "pending" ∨ st = "failed"
  | AtCompleted _ => st = "complete"
  | AtFailed _ _ => st = "failed"
  | _ => st = "processing" ∨ st = "failed"
  end.

(** Its results and, past the [except] clause, its error. *)
Definition results_at (t : Thread) (r : option value) : Prop :=
  match t with
  | AtCompleted _ => is_Some r
  | _ => r = None
  end.

Definition error_at (t : Thread) (err : option string) : Prop :=
  match t with
  | AtFailed _ e => err = Some (str e)
  | _ => True
  end.

(** Its [started_at], which the thread assigns when it leaves line 120. *)
Definition started_at_at (t : Thread) (started : option Z) : Prop :=
  match t with
  | AtProcessing _ | AtStarted _ => started = None
  | _ => is_Some started
  end.

(** A job that waits in the queue. *)
Definition fresh (j : AnalysisJob) : Prop :=
  (status j = "pending" ∨ status j = "failed")
  ∧ progress j = 0 ∧ results j = None
  ∧ (status j = "failed" → is_Some (error j))
  ∧ (status j = "pending" → error j = None)
  ∧ started_at j = None ∧ completed_at j = None.

(** A job on which a thread standing at [t] works. *)
Definition working (t : Thread) (j : AnalysisJob) : Prop :=
  status_at t (status j)
  ∧ progress_at t (progress j) ∧ results_at t (results j)
  ∧ (status j = "failed" → is_Some (error j))
  ∧ error_at t (error j)
  ∧ (status j = "pending" → error j = None)
  ∧ started_at_at t (started_at j) ∧ completed_at j = None.

(** A job that is neither queued nor worked on. *)
Definition finished (j : AnalysisJob) : Prop :=
  (status j = "complete" ∧ progress j = 100 ∧ is_Some (results j)
   ∧ is_Some (started_at j) ∧ is_Some (completed_at j))
  ∨ (status j = "failed" ∧ 0 ≤ progress j < 100 ∧ results j = None ∧ is_Some (error j)
     ∧ (is_Some (completed_at j) → is_Some (started_at j))).

(** The invariant of the service: a job is held by the queue (once), by
    one thread, or by nobody, and looks accordingly. *)
Record inv_on (js : list AnalysisJob) (q : list nat) (ts : list Thread) : Prop := mkInv {
  queue_nodup : NoDup q;
  queue_valid : ∀ a, a ∈ q → (a < length js)%nat;
  thread_valid : ∀ i t a, ts !! i = Some t → job_of t = Some a → (a < length js)%nat;
  queue_thread : ∀ i t a, ts !! i = Some t → job_of t = Some a → a ∉ q;
  thread_thread : ∀ i i' t t' a,
    ts !! i = Some t → ts !! i' = Some t' →
    job_of t = Some a → job_of t' = Some a → i = i';
  queue_fresh : ∀ a j, js !! a = Some j → a ∈ q → fresh j;
  thread_working : ∀ i t a j,
    ts !! i = Some t → job_of t = Some a → js !! a = Some j → working t j;
  free_finished : ∀ a j,
    js !! a = Some j → a ∉ q →
    (∀ i t, ts !! i = Some t → job_of t ≠ Some a) → finished j
}.

Definition inv (s : AnalyzerService) : Prop :=
  inv_on (jobs s) (job_queue s) (threads s).

(** What one operation does to the job at [a], which was [j] before. *)
Inductive job_step (s : AnalyzerService) (a : nat) (j : AnalysisJob)
  : Op → AnalysisJob → Prop :=
| step_none op :
    job_step s a j op j
| step_cancel job_id :
    active_jobs s !! job_id = Some a →
    status j = "pending" ∨ status j = "processing" →
    job_step s a j (Cancel job_id)
             (set_error (Some "Cancelled by user") (set_status "failed" j))
| step_processing i env :
    threads s !! i = Some (AtProcessing a) →
    job_step s a j (Work i env) (set_status "processing" j)
| step_started i env :
    threads s !! i = Some (AtStarted a) →
    job_step s a j (Work i env) (set_started_at (Some (now env)) j)
| step_progress i env t p message :
    threads s !! i = Some t →
    job_of t = Some a →
    next_progress t = Some p →
    job_step s a j (Work i env) (set_current_step message (set_progress p j))
| step_results i env df r :
    threads s !! i = Some (AtResults a df) →
    summary df = Return r →
    job_step s a j (Work i env) (set_status "complete" (set_results (Some r) j))
| step_completed i env :
    threads s !! i = Some (AtCompleted a) →
    job_step s a j (Work i env)
             (set_progress 100 (set_completed_at (Some (now env)) j))
| step_except i env e :
    threads s !! i = Some (InExcept a e) →
    job_step s a j (Work i env) (set_error (Some (str e)) (set_status "failed" j))
| step_failed i env e :
    threads s !! i = Some (AtFailed a e) →
    job_step s a j (Work i env) (set_completed_at (Some (now env)) j).

End Lifecycle.

(** ** Concrete inputs

    The values, cache directories and requests on which the properties
    below are run. *)

Module Scenario.

Fixpoint string_repeat (c : ascii) (n : nat) : string :=
  match n with
  | O => EmptyString
  | S n => String c (string_repeat c n)
  end.

(** The results of analysing three messages. *)
Definition summary3 : value :=
  PyDict [("summary", PyDict [("total_conversations", PyInt 1);
                              ("total_messages", PyInt 3);
                              ("user_messages", PyInt 2);
                              ("assistant_messages", PyInt 1)]);
          ("data", PyList []);
          ("topics", PyList [PyList [PyStr "code"; PyInt 2]])].

Definition cache_empty : Cache.World := Cache.mkWorld ∅ [].

(** A cache whose entry for digest [d1] is cut short. *)
Definition cache_corrupt : Cache.World := Cache.mkWorld {[ "d1.json" := "[1, " ]} [].




Import Analyzer.

(** An analyzer that finds three messages in every document, at time [t]. *)
Definition frame3 : DataFrame := mkDataFrame 3 (Return summary3).

Definition analyzer_ok (t : Z) : Env :=
  mkEnv t (Return ()) (λ _ _ _ _ _, Return ()) (λ _, Return ()) (λ _, Return frame3).


(** A step of the first worker thread at time [t]. *)
Definition work (t : Z) : Op := Work 0 (analyzer_ok t).

(** One submission, on a new service. *)
Definition submitted : AnalyzerService :=
  run (init Config.default) [Create "j1" 0 "a.json" ∅].

(** The worker takes the job off the queue and marks it, reads the clock
    at time 2 and gets as far as [load_data]. *)
Definition ops_processing : list Op :=
  [Create "j1" 0 "a.json" ∅; work 1; work 1; work 1; work 2; work 3; work 4].

(** The job is cancelled there. *)
Definition ops_cancelled : list Op := ops_processing ++ [Cancel "j1"].

(** The worker goes on until it has marked the job complete, and then to
    the end of [_run_analysis]. *)
Definition ops_results : list Op := [work 5; work 6; work 7; work 8].

Definition ops_rest : list Op := ops_results ++ [work 8].

(** The same document submitted twice, the second time after the first
    analysis is complete, and both run to the end. *)
Definition ops_twice : list Op :=
  [Create "j1" 0 "a.json" ∅; work 1; work 1; work 1; work 2; work 3; work 4; work 5; work 6;
   work 7; work 8; work 8;
   Create "j2" 9 "a.json" ∅; work 10; work 10; work 10; work 11; work 12; work 13; work 14;
   work 15; work 16; work 17; work 17].

(** A run that takes far longer than [JOB_TIMEOUT]: taken at time 2, done
    at time 10000. *)
Definition ops_slow : list Op :=
  [Create "j1" 0 "a.json" ∅; work 1; work 1; work 1; work 2; work 3; work 4; work 5; work 6;
   work 9000; work 9000; work 10000].


End Scenario.

(** ** backend/services/analyzer_service.py: the topic distribution *)

Module Topics.

(** The characters that [str.strip()] removes, among the code points
    below 256, which are the characters of the strings here: tab to
    carriage return, the four separators, the space, next line (U+0085)
    and the no-break space (U+00A0). *)
Definition is_space (c : ascii) : bool :=
  let n := nat_of_ascii c in
  ((9 <=? n)%nat && (n <=? 13)%nat) || ((28 <=? n)%nat && (n <=? 32)%nat)
  || (n =? 133)%nat || (n =? 160)%nat.

Fixpoint lstrip (s : string) : string :=
  match s with
  | String c r => if is_space c then lstrip r else s
  | EmptyString => EmptyString
  end.

Fixpoint rstrip (s : string) : string :=
  match s with
  | String c r =>
      match rstrip r with
      | EmptyString => if is_space c then EmptyString else String c EmptyString
      | r' => String c r'
      end
  | EmptyString => EmptyString
  end.

(** [topic.strip()] *)
Definition strip (s : string) : string := rstrip (lstrip s).

(** [topics_str.split(sep)]: the pieces between the separators, at least
    one. *)
Fixpoint split (sep : ascii) (s : string) : list string :=
  match s with
  | EmptyString => [EmptyString]
  | String c r =>
      if Ascii.eqb c sep then EmptyString :: split sep r
      else match split sep r with
           | p :: ps => String c p :: ps
           | [] => [String c EmptyString]
           end
  end.

(** [topic_counts[topic] = topic_counts.get(topic, 0) + 1] on a dict,
    which keeps its keys in the order of their first insertion. *)
Fixpoint bump (topic : string) (topic_counts : list (string * Z)) : list (string * Z) :=
  match topic_counts with
  | [] => [(topic, 1)]
  | (k, n) :: r =>
      if String.eqb k topic then (k, n + 1) :: r else (k, n) :: bump topic r
  end.

(** The body of the outer loop for one cell of the column: only a [str]
    is counted. *)
Definition count_cell (topic_counts : list (string * Z)) (cell : value) : list (string * Z) :=
  match cell with
  | PyStr topics_str =>
      fold_left (λ d topic, bump (strip topic) d) (split "|" topics_str) topic_counts
  | _ => topic_counts
  end.

(** [df['topics'].dropna()]: the cells that are not null. *)
Definition is_null (cell : value) : bool :=
  match cell with
  | PyNone => true
  | _ => false
  end.

Definition dropna (column : list value) : list value :=
  filter (λ cell, is_null cell = false) column.

(** [sorted(items, key=lambda x: x[1], reverse=True)]: by falling count,
    items of equal count in the order they came in. *)
Fixpoint insert_desc (x : string * Z) (l : list (string * Z)) : list (string * Z) :=
  match l with
  | [] => [x]
  | y :: r => if y.2 <=? x.2 then x :: y :: r else y :: insert_desc x r
  end.

Definition sorted_desc (items : list (string * Z)) : list (string * Z) :=
  foldr insert_desc [] items.

(** [AnalyzerService._get_topic_distribution] on the column [df['topics']]. *)
Definition _get_topic_distribution (column : list value) : list (string * Z) :=
  let topic_counts := fold_left count_cell (dropna column) [] in
  take 10 (sorted_desc topic_counts).

(** All the topics of a column, one for each time it is named. *)
Definition mentions (column : list value) : list string :=
  concat (map (λ cell, match cell with
                        | PyStr topics_str => map strip (split "|" topics_str)
                        | _ => []
                        end) column).

(** The dict after counting the topics of [l] one by one, and how often
    [topic] is named in [l]. *)
Definition tally (l : list string) : list (string * Z) :=
  fold_left (λ d topic, bump topic d) l [].

Definition occurrences (topic : string) (l : list string) : Z :=
  Z.of_nat (length (filter (λ x, x = topic) l)).

(** Strings of white space only, strings with the character [c] in them,
    and strings that neither begin nor end with white space. *)
Fixpoint all_space (s : string) : bool :=
  match s with
  | EmptyString => true
  | String c r => is_space c && all_space r
  end.

Fixpoint has_char (c : ascii) (s : string) : bool :=
  match s with
  | EmptyString => false
  | String c' r => Ascii.eqb c' c || has_char c r
  end.

Definition first_char (s : string) : option ascii :=
  match s with
  | EmptyString => None
  | String c _ => Some c
  end.

Fixpoint last_char (s : string) : option ascii :=
  match s with
  | EmptyString => None
  | String c EmptyString => Some c
  | String _ r => last_char r
  end.

Definition trimmed (s : string) : Prop :=
  (∀ c, first_char s = Some c → is_space c = false)
  ∧ (∀ c, last_char s = Some c → is_space c = false).

End Topics.

(** ** backend/services/cache_service.py: the content digest *)

Module Hashing.

Section WithSha256.

(** [hashlib.sha256()]: the new hash object, [update] and [hexdigest]. *)
Context {Sha : Type}.
Variable sha256 : Sha.
Variable update : Sha → string → Sha.
Variable hexdigest : Sha → string.

(** [f.read(n)] on what is left of the file: the next [n] bytes at most,
    and what is left after them. *)
Definition read (n : nat) (rest : string) : string * string :=
  (substring 0 n rest, substring n (String.length rest - n) rest).

(** [for chunk in iter(lambda: f.read(n), b""): sha256.update(chunk)],
    for at most [fuel] reads. *)
Fixpoint read_loop (fuel n : nat) (sha : Sha) (rest : string) : option Sha :=
  match fuel with
  | O => None
  | S fuel =>
      let '(chunk, rest) := read n rest in
      match chunk with
      | EmptyString => Some sha
      | String _ _ => read_loop fuel n (update sha chunk) rest
      end
  end.

(** [CacheService.calculate_file_hash] on the file at [file_path], which
    is [None] when [open] finds no such file. [None] as the outcome means
    that the loop was not over after [fuel] reads. *)
Definition calculate_file_hash (fuel : nat) (file : option string) : option (result string) :=
  match file with
  | None => Some (Raise (Exception "No such file or directory"))
  | Some content =>
      sha ← read_loop fuel 4096 sha256 content;
      Some (Return (hexdigest sha))
  end.

End WithSha256.

End Hashing.

(** ** backend/routes/upload.py: the validation helpers *)

Module Upload.

(** [Config.ALLOWED_EXTENSIONS] *)
Definition ALLOWED_EXTENSIONS : list string := ["json"].

(** [filename.rsplit('.', 1)[1]] when ['.' in filename]: what follows the
    last dot. *)
Fixpoint after_last_dot (filename : string) : option string :=
  match filename with
  | EmptyString => None
  | String c r =>
      match after_last_dot r with
      | Some ext => Some ext
      | None => if Ascii.eqb c "." then Some r else None
      end
  end.

(** [str.lower()], on ASCII. *)
Definition lower_char (c : ascii) : ascii :=
  let n := nat_of_ascii c in
  if (65 <=? n)%nat && (n <=? 90)%nat then ascii_of_nat (n + 32) else c.

Fixpoint lower (s : string) : string :=
  match s with
  | EmptyString => EmptyString
  | String c r => String (lower_char c) (lower r)
  end.

(** [allowed_file] *)
Definition allowed_file (filename : string) : bool :=
  match after_last_dot filename with
  | Some ext => bool_decide (lower ext ∈ ALLOWED_EXTENSIONS)
  | None => false
  end.

(** [key in data] and [data[key]] on a dict; of two items with the same
    key, as [json.load] may meet them, the later one counts. *)
Fixpoint dict_get (key : string) (items : list (string * value)) : option value :=
  match items with
  | [] => None
  | (k, v) :: r =>
      match dict_get key r with
      | Some v' => Some v'
      | None => if String.eqb k key then Some v else None
      end
  end.

(** [validate_json_structure] *)
Definition validate_json_structure (data : value) : bool * option string :=
  match data with
  | PyDict items =>
      match dict_get "conversations" items with
      | None => (false, Some "Invalid JSON: missing 'conversations' field")
      | Some (PyList conversations) =>
          match conversations with
          | [] => (false, Some "No conversations found in export")
          | _ :: _ => (true, None)
          end
      | Some _ => (false, Some "Invalid JSON: 'conversations' must be an array")
      end
  | _ => (false, Some "Invalid JSON: root must be an object")
  end.

End Upload.

(** ** backend/config.py: the choice of a configuration *)

Module Settings.

Inductive ConfigClass : Type := DevelopmentConfig | ProductionConfig.

(** [DEBUG] of the two classes. *)
Definition DEBUG (c : ConfigClass) : bool :=
  match c with
  | DevelopmentConfig => true
  | ProductionConfig => false
  end.

(** The dictionary [config]. *)
Definition config : gmap string ConfigClass :=
  {[ "development" := DevelopmentConfig;
     "production" := ProductionConfig;
     "default" := DevelopmentConfig ]}.

(** [get_config]; [environ] is [os.environ]. *)
Definition get_config (environ : gmap string string) (env : option string) : option ConfigClass :=
  let env := match env with
             | Some env => env
             | None => default "development" (environ !! "FLASK_ENV")
             end in
  fallback ← config !! "default";
  Some (default fallback (config !! env)).

End Settings.

(** ** backend/services/analyzer_service.py: what the service keeps of a job *)

Module Bookkeeping.
Import Analyzer Lifecycle.

(** Every key of [active_jobs] leads to a job object, and to one that
    bears the key as its [job_id]. *)
Definition registered (s : AnalyzerService) : Prop :=
  ∀ id a, active_jobs s !! id = Some a → ∃ j, jobs s !! a = Some j ∧ job_id j = id.

(** The [Create] operations that draw the identifier [id]. *)
Definition creates (id : string) (op : Op) : bool :=
  match op with
  | Create uuid _ _ _ => bool_decide (uuid = id)
  | _ => false
  end.

(** The two events that end a run of [_run_analysis]. *)
Definition is_last (e : Effect) : bool :=
  match e with
  | emit_complete _ _ _ | emit_error _ _ _ _ => true
  | _ => false
  end.

(** Some job with the identifier [id] satisfies [P], is out of the queue
    and is not worked on. *)
Definition settled_as (s : AnalyzerService) (id : string) (P : AnalysisJob → Prop) : Prop :=
  ∃ a j, jobs s !! a = Some j ∧ job_id j = id ∧ P j
         ∧ (a ∉ job_queue s) ∧ ¬ worked_on s a.

(** What a last event says is the case. *)
Definition truthful (s : AnalyzerService) (e : Effect) : Prop :=
  match e with
  | emit_complete id st room =>
      st = "complete" ∧ room = id
      ∧ settled_as s id (λ j, status j = "complete" ∧ progress j = 100 ∧ is_Some (results j))
  | emit_error id err st room =>
      st = "failed" ∧ room = id
      ∧ settled_as s id (λ j, status j = "failed" ∧ error j = Some err)
  | _ => True
  end.

End Bookkeeping.

(** ** More concrete inputs *)

Module Scenario2.

(** A stand-in for SHA-256 that hashes by streaming too: the sum of the
    character codes. *)
Fixpoint code_sum (s : string) : Z :=
  match s with
  | EmptyString => 0
  | String c r => Z.of_nat (nat_of_ascii c) + code_sum r
  end.

Definition checksum_update (sha : Z) (chunk : string) : Z := sha + code_sum chunk.

Definition checksum_hexdigest (sha : Z) : string := pretty sha.

(** A column of topics with a null cell, a number, repeated and padded
    names and an empty cell. *)
Definition topics_column : list value :=
  [PyStr "code|math"; PyNone; PyStr "math | code| art"; PyInt 3;
   PyStr (String (ascii_of_nat 160) "art|art"); PyStr EmptyString].

(** An export with one conversation, and one whose conversations are not
    a list. *)
Definition export_ok : value :=
  PyDict [("conversations", PyList [PyDict [("messages", PyList [])]])].

Definition export_bad : value :=
  PyDict [("conversations", PyStr "none")].

(** Eleven topics named once each, the first of them once more. *)
Definition topics_eleven : list value :=
  [PyStr "a|b|c|d|e|f|g|h|i|j|k"; PyStr "a"].

(** A file of 4100 bytes: a read of 4096 bytes, one of 4, and the empty
    one. *)
Definition two_chunks : string := Scenario.string_repeat "a" 4100.

Import Analyzer.

(** A job cancelled while it waits in the queue, and three steps of the
    worker after that. *)
Definition cancelled_waiting : AnalyzerService :=
  run (init Config.default) [Create "j1" 0 "a.json" ∅; Cancel "j1"].

Definition ops_after_cancel : list Op :=
  [Scenario.work 1; Scenario.work 2; Scenario.work 3].

End Scenario2.
(** * Properties *)

(** ** The cache *)

Module CacheProps.
Import Cache.

Section WithJson.

Context {Value : Type}.
Variable json_dump : Value → string * option exn.
Variable json_load : string → result Value.

Local Abbreviation get := (Cache.get json_load).
Local Abbreviation set := (Cache.set json_dump).

Ltac run_io :=
  unfold Cache.get, Cache.set, try_except, open_read, read, open_write, write,
    exists_, logger, set_file, raise, mbind, mret, IO_bind, IO_ret; simpl.

Lemma get_exists_fails e file_hash w : get (ExistsFails e) file_hash w = (Raise e, w).
Proof. by run_io. Qed.

Lemma get_outcome os file_hash w :
  (∀ e, os ≠ ExistsFails e) →
  (get os file_hash w).1 = Return None ∨
  ∃ text v, os = ReadOk ∧ files w !! cache_file file_hash = Some text ∧
            json_load text = Return v ∧ (get os file_hash w).1 = Return (Some v).
Proof.
  intros Hos. run_io.
  destruct (files w !! cache_file file_hash) as [text|] eqn:Hf; simpl.
  - destruct os as [|e| |]; simpl; repeat (rewrite Hf; simpl); auto.
    + destruct (json_load text) as [v|e] eqn:Hl; simpl.
      * right. exists text, v. done.
      * by left.
    + by destruct (Hos e).
  - destruct os as [|e| |]; simpl; repeat (rewrite Hf; simpl); auto.
    by destruct (Hos e).
Qed.

Lemma get_files os file_hash w : files (get os file_hash w).2 = files w.
Proof.
  run_io. destruct (files w !! cache_file file_hash) as [text|] eqn:Hf; simpl.
  - destruct os; simpl; repeat (rewrite Hf; simpl); try done. by destruct (json_load text).
  - destruct os; simpl; repeat (rewrite Hf; simpl); done.
Qed.

Lemma get_hit file_hash w text v :
  files w !! cache_file file_hash = Some text →
  json_load text = Return v →
  (get ReadOk file_hash w).1 = Return (Some v).
Proof.
  intros Hf Hl. run_io. by repeat (first [rewrite Hf | rewrite Hl]; simpl).
Qed.

Lemma set_returns os file_hash v w : (set os file_hash v w).1 = Return ().
Proof.
  run_io. destruct (json_dump v) as [text [e|]], os; done.
Qed.

Lemma set_files os file_hash v w :
  files (set os file_hash v w).2 =
  match os with
  | WriteOk => <[cache_file file_hash := (json_dump v).1]> (files w)
  | OpenFails _ => files w
  | WriteFails n _ => <[cache_file file_hash := substring 0 n (json_dump v).1]> (files w)
  end.
Proof.
  run_io. destruct (json_dump v) as [text [e|]], os; simpl;
    by rewrite ?insert_insert_eq.
Qed.

Lemma set_other os file_hash v w name :
  name ≠ cache_file file_hash →
  files (set os file_hash v w).2 !! name = files w !! name.
Proof.
  intros Hne. rewrite set_files. destruct os; by rewrite ?lookup_insert_ne.
Qed.

(** C8. [set] followed by [get] under the same digest returns the stored
    value, for every value that [json] writes in full and reads back as
    itself and when the operating system lets the write and the read
    through; an earlier [set] under the same digest, whatever became of
    it, is overwritten. No last-access timestamp is stored. *)
Theorem put_get_roundtrip w os0 file_hash v0 v text :
  json_dump v = (text, None) →
  json_load text = Return v →
  (get ReadOk file_hash (set WriteOk file_hash v w).2).1 = Return (Some v)
  ∧ (get ReadOk file_hash (set WriteOk file_hash v (set os0 file_hash v0 w).2).2).1
    = Return (Some v).
Proof.
  intros Hd Hl. split; apply get_hit with text; try done;
    rewrite set_files, Hd; apply lookup_insert_eq.
Qed.

(** C9, where the code departs from it. [cache_file.exists()] stands
    before the [try] of [get]: the error that it raises, when the entry
    cannot be examined, reaches the caller of [get], with the cache and
    the log as they were. *)
Theorem get_raises_what_exists_raises e file_hash w :
  get (ExistsFails e) file_hash w = (Raise e, w).
Proof. apply get_exists_fails. Qed.

(** X22. What the [try] blocks do catch, for a digest that is a plain
    name. When [exists()] answers, [get] does not raise: a missing entry,
    an entry that [json] cannot read and an entry that the operating
    system refuses to open or to read all yield [None]. [get] leaves the
    files as they are. [set] never raises, whatever fails in it, and
    touches no other entry; when the file cannot be opened it changes no
    file at all. *)
Theorem cache_failures_swallowed os os' file_hash v w :
  has_slash file_hash = false →
  ((∀ e, os ≠ ExistsFails e) →
   (∃ r, (get os file_hash w).1 = Return r)
   ∧ (files w !! cache_file file_hash = None → (get os file_hash w).1 = Return None)
   ∧ (∀ text e, files w !! cache_file file_hash = Some text →
                json_load text = Raise e → (get os file_hash w).1 = Return None)
   ∧ (os ≠ ReadOk → (get os file_hash w).1 = Return None))
  ∧ files (get os file_hash w).2 = files w
  ∧ (set os' file_hash v w).1 = Return ()
  ∧ (∀ name, name ≠ cache_file file_hash →
             files (set os' file_hash v w).2 !! name = files w !! name)
  ∧ (∀ e, os' = OpenFails e → files (set os' file_hash v w).2 = files w).
Proof.
  intros _. split_and!.
  - intros Hos. pose proof (get_outcome os file_hash w Hos) as Hget. split_and!.
    + destruct Hget as [->|(? & ? & _ & _ & _ & ->)]; eauto.
    + intros Hf. destruct Hget as [|(? & ? & _ & Hf' & _)]; congruence.
    + intros text e Hf Hl. destruct Hget as [|(? & ? & _ & Hf' & Hl' & _)]; congruence.
    + intros Hne. destruct Hget as [|(? & ? & ? & _)]; congruence.
  - apply get_files.
  - apply set_returns.
  - intros name Hne. by apply set_other.
  - intros e ->. by rewrite set_files.
Qed.

End WithJson.

Lemma app_cons (c : ascii) (s1 s2 : string) : String c s1 +:+ s2 = String c (s1 +:+ s2).
Proof. reflexivity. Qed.

Lemma length_app (s1 s2 : string) :
  String.length (s1 +:+ s2) = (String.length s1 + String.length s2)%nat.
Proof. induction s1 as [|c s1 IH]; [done|]. rewrite app_cons. simpl. by rewrite IH. Qed.

Lemma ends_with_json_app (s : string) : ends_with_json (s +:+ ".json") = true.
Proof.
  induction s as [|c s IH]; [done|].
  rewrite app_cons. simpl. rewrite IH. by case_match.
Qed.

Lemma has_slash_app (s1 s2 : string) :
  has_slash (s1 +:+ s2) = has_slash s1 || has_slash s2.
Proof. induction s1 as [|c s1 IH]; [done|]. rewrite app_cons. simpl. by case_match. Qed.

Lemma glob_json_cache_file file_hash :
  has_slash file_hash = false → glob_json (cache_file file_hash) = true.
Proof.
  intros Hs. unfold glob_json, cache_file.
  by rewrite ends_with_json_app, has_slash_app, Hs.
Qed.





End CacheProps.

(** ** The codec *)

Module MiniJsonProps.
Import MiniJson.


Lemma dump_str (s : string) : dump (PyStr s) = (quote s, None).
Proof. reflexivity. Qed.


Lemma length_string_repeat c n : String.length (Scenario.string_repeat c n) = n.
Proof. induction n; simpl; congruence. Qed.

End MiniJsonProps.

(** ** The cache on concrete entries *)

Module CacheScenario.
Import Cache Scenario.

Lemma put_get_roundtrip_witness :
  (Cache.get MiniJson.load ReadOk "d1"
     (Cache.set MiniJson.dump WriteOk "d1" summary3 cache_corrupt).2).1
  = Return (Some summary3).
Proof.
  refine (proj1 (CacheProps.put_get_roundtrip MiniJson.dump MiniJson.load
                   cache_corrupt WriteOk "d1" PyNone summary3 _ _ _));
    vm_compute; reflexivity.
Defined.

Lemma cache_failures_swallowed_witness :
  (Cache.get MiniJson.load ReadOk "d1" cache_corrupt).1 = Return None
  ∧ (Cache.get MiniJson.load (ReadFails (Exception "Input/output error")) "d1"
       cache_corrupt).1 = Return None.
Proof.
  split.
  - refine (proj1 (proj2 (proj2
             (proj1 (CacheProps.cache_failures_swallowed MiniJson.dump MiniJson.load
                       ReadOk WriteOk "d1" PyNone cache_corrupt eq_refl) _)))
             "[1, " (Exception "Expecting value") _ _);
      [discriminate|vm_compute; reflexivity..].
  - refine (proj2 (proj2 (proj2
             (proj1 (CacheProps.cache_failures_swallowed MiniJson.dump MiniJson.load
                       (ReadFails (Exception "Input/output error")) WriteOk "d1" PyNone
                       cache_corrupt eq_refl) _))) _);
      discriminate.
Defined.







End CacheScenario.

(** ** The job registry and the worker *)

Module AnalyzerProps.
Import Analyzer Lifecycle.

(** *** What the operations touch *)

Lemma jobs_goto i t s : jobs (goto i t s) = jobs s.
Proof. done. Qed.

Lemma jobs_emit_progress a p m s :
  jobs (_emit_progress a p m s) = alter (λ j, set_current_step m (set_progress p j)) a (jobs s).
Proof. unfold _emit_progress. simpl. by case_match. Qed.

Lemma jobs_emit_complete a s : jobs (_emit_complete a s) = jobs s.
Proof. unfold _emit_complete. by case_match. Qed.

Lemma jobs_emit_error a e s : jobs (_emit_error a e s) = jobs s.
Proof. unfold _emit_error. by case_match. Qed.

Lemma threads_emit_progress a p m s : threads (_emit_progress a p m s) = threads s.
Proof. unfold _emit_progress. simpl. by case_match. Qed.

Lemma threads_emit_complete a s : threads (_emit_complete a s) = threads s.
Proof. unfold _emit_complete. by case_match. Qed.

Lemma threads_emit_error a e s : threads (_emit_error a e s) = threads s.
Proof. unfold _emit_error. by case_match. Qed.

Lemma queue_emit_progress a p m s : job_queue (_emit_progress a p m s) = job_queue s.
Proof. unfold _emit_progress. simpl. by case_match. Qed.

Lemma queue_emit_complete a s : job_queue (_emit_complete a s) = job_queue s.
Proof. unfold _emit_complete. by case_match. Qed.

Lemma queue_emit_error a e s : job_queue (_emit_error a e s) = job_queue s.
Proof. unfold _emit_error. by case_match. Qed.

Lemma alter_lookup_same {A} (f : A → A) (l : list A) a x :
  l !! a = Some x → alter f a l !! a = Some (f x).
Proof. intros H. by rewrite list_lookup_alter_eq, H. Qed.

(** *** The invariant is kept *)

Ltac inserted H :=
  apply list_lookup_insert_Some in H as [(-> & <- & _)|[? H]].

Lemma inv_init : inv_on [] [] [].
Proof.
  constructor; try done.
  - constructor.
  - intros a Ha. by apply elem_of_nil in Ha.
Qed.

(** A thread that holds no job moves on without taking one. *)
Lemma inv_idle js q ts i t t' :
  inv_on js q ts → ts !! i = Some t → job_of t = None → job_of t' = None →
  inv_on js q (<[i:=t']> ts).
Proof.
  intros [] Ht Hn Hn'. constructor; try done.
  - intros i0 t0 a H0 Hj. inserted H0; [congruence|eauto].
  - intros i0 t0 a H0 Hj. inserted H0; [congruence|eauto].
  - intros i0 i1 t0 t1 a H0 H1 Hj0 Hj1.
    inserted H0; [congruence|]. inserted H1; [congruence|]. eauto.
  - intros i0 t0 a j H0 Hj. inserted H0; [congruence|eauto].
  - intros a j Hj Hq Hfree. apply (free_finished0 a j); try done.
    intros i0 t0 H0 Hj0. destruct (decide (i = i0)) as [->|Hne]; [congruence|].
    apply (Hfree i0 t0); [by rewrite list_lookup_insert_ne|done].
Qed.

(** A new thread starts at the loop. *)
Lemma inv_spawn js q ts : inv_on js q ts → inv_on js q (ts ++ [AtLoop]).
Proof.
  intros []. constructor; try done.
  - intros i t a [[_ H]|[_ <-]]%lookup_snoc_Some Hj; [eauto|done].
  - intros i t a [[_ H]|[_ <-]]%lookup_snoc_Some Hj; [eauto|done].
  - intros i i' t t' a [[_ H]|[_ <-]]%lookup_snoc_Some
           [[_ H']|[_ <-]]%lookup_snoc_Some Hj Hj'; try done. eauto.
  - intros i t a j [[_ H]|[_ <-]]%lookup_snoc_Some Hj; [eauto|done].
  - intros a j Hj Hq Hfree. apply (free_finished0 a j); try done.
    intros i t Ht. apply (Hfree i t). by apply lookup_app_l_Some.
Qed.

(** A new job enters the store and the queue. *)
Lemma inv_create js q ts jn :
  inv_on js q ts → fresh jn → inv_on (js ++ [jn]) (q ++ [length js]) ts.
Proof.
  intros [] Hfresh. constructor.
  - apply NoDup_app. split; [done|]. split; [|apply NoDup_singleton].
    intros a Ha ->%list_elem_of_singleton. apply queue_valid0 in Ha. lia.
  - intros a [Ha| ->%list_elem_of_singleton]%elem_of_app; rewrite length_app; simpl;
      [apply queue_valid0 in Ha|]; lia.
  - intros i t a Ht Hj. rewrite length_app. simpl.
    pose proof (thread_valid0 i t a Ht Hj). lia.
  - intros i t a Ht Hj [Ha| ->%list_elem_of_singleton]%elem_of_app.
    + by eapply queue_thread0.
    + pose proof (thread_valid0 i t _ Ht Hj). lia.
  - done.
  - intros a j [[_ Hj]|[-> <-]]%lookup_snoc_Some Ha; [|done].
    apply elem_of_app in Ha as [Ha| ->%list_elem_of_singleton]; [eauto|].
    apply lookup_lt_Some in Hj. lia.
  - intros i t a j Ht Hjo [[_ Hj]|[-> <-]]%lookup_snoc_Some; [eauto|].
    pose proof (thread_valid0 i t _ Ht Hjo). lia.
  - intros a j [[_ Hj]|[-> <-]]%lookup_snoc_Some Ha Hfree.
    + apply (free_finished0 a j); try done. intros Hq. apply Ha, elem_of_app. by left.
    + destruct Ha. apply elem_of_app. right. by apply list_elem_of_singleton.
Qed.

(** An assignment to a job that changes nobody's hold on it. *)
Lemma inv_alter js q ts a f :
  inv_on js q ts →
  (∀ j, js !! a = Some j →
        (fresh j → fresh (f j)) ∧ (∀ t, working t j → working t (f j))
        ∧ (finished j → finished (f j))) →
  inv_on (alter f a js) q ts.
Proof.
  intros [] Hf. constructor; try done.
  - intros a0 Ha. rewrite length_alter. eauto.
  - intros i t a0 Ht Hj. rewrite length_alter. eauto.
  - intros a0 j. rewrite list_lookup_alter. case_decide as Ha; [subst a0|by eauto].
    destruct (js !! a) as [j0|] eqn:Hj0; [|done]. intros [= <-] Hq.
    apply (Hf j0 eq_refl); eauto.
  - intros i t a0 j Ht Hjo. rewrite list_lookup_alter. case_decide as Ha; [subst a0|by eauto].
    destruct (js !! a) as [j0|] eqn:Hj0; [|done]. intros [= <-].
    apply (Hf j0 eq_refl); eauto.
  - intros a0 j. rewrite list_lookup_alter. case_decide as Ha; [subst a0|by eauto].
    destruct (js !! a) as [j0|] eqn:Hj0; [|done]. intros [= <-] Hq Hfree.
    apply (Hf j0 eq_refl); eauto.
Qed.

(** The job at the head of the queue turns out to be over. *)
Lemma inv_drop js a q ts :
  inv_on js (a :: q) ts → (∀ j, js !! a = Some j → finished j) → inv_on js q ts.
Proof.
  intros [] Hfin. apply NoDup_cons in queue_nodup0 as [Hna Hnd].
  constructor; try done.
  - intros a0 Ha. apply queue_valid0. by right.
  - intros i t a0 Ht Hj Ha. eapply queue_thread0; [done..|]. by right.
  - intros a0 j Hj Ha. apply (queue_fresh0 a0 j Hj). by right.
  - intros a0 j Hj Ha Hfree. destruct (decide (a0 = a)) as [->|Hne]; [eauto|].
    apply (free_finished0 a0 j); try done. by intros [?|?]%elem_of_cons.
Qed.

(** A thread takes the job at the head of the queue. *)
Lemma inv_pickup js a q ts i t t' f :
  inv_on js (a :: q) ts → ts !! i = Some t → job_of t = None → job_of t' = Some a →
  (∀ j, js !! a = Some j → fresh j → working t' (f j)) →
  inv_on (alter f a js) q (<[i:=t']> ts).
Proof.
  intros [] Ht Hn Hn' Hf. apply NoDup_cons in queue_nodup0 as [Hna Hnd].
  assert (a ∈ a :: q) as Hin by left.
  constructor; try done.
  - intros a0 Ha. rewrite length_alter. apply queue_valid0. by right.
  - intros i0 t0 a0 H0 Hj. rewrite length_alter.
    inserted H0; [simplify_eq; eauto|eauto].
  - intros i0 t0 a0 H0 Hj Ha. inserted H0; [by simplify_eq|].
    eapply queue_thread0; [done..|]. by right.
  - intros i0 i1 t0 t1 a0 H0 H1 Hj0 Hj1.
    inserted H0; inserted H1; simplify_eq; eauto;
      exfalso; eapply queue_thread0; eauto.
  - intros a0 j. rewrite list_lookup_alter. case_decide as Ha; [by subst a0|].
    intros Hj Hq. apply (queue_fresh0 a0 j Hj). by right.
  - intros i0 t0 a0 j H0 Hj0. rewrite list_lookup_alter. inserted H0.
    + simplify_eq. rewrite decide_True by done.
      destruct (js !! _) as [j0|] eqn:Hj; [|done]. intros [= <-]. eauto.
    + case_decide as Ha; [subst a0; exfalso; eapply queue_thread0; eauto|eauto].
  - intros a0 j. rewrite list_lookup_alter. case_decide as Ha.
    + subst a0. intros _ _ Hfree. exfalso. apply (Hfree i t'); [|done].
      apply list_lookup_insert_eq. by eapply lookup_lt_Some.
    + intros Hj Hq Hfree. apply (free_finished0 a0 j); try done.
      * by intros [?|?]%elem_of_cons.
      * intros i0 t0 H0 Hj0. destruct (decide (i = i0)) as [->|Hne]; [congruence|].
        apply (Hfree i0 t0); [by rewrite list_lookup_insert_ne|done].
Qed.

(** A thread goes on with its job. *)
Lemma inv_hold js q ts i t t' a f :
  inv_on js q ts → ts !! i = Some t → job_of t = Some a → job_of t' = Some a →
  (∀ j, js !! a = Some j → working t j → working t' (f j)) →
  inv_on (alter f a js) q (<[i:=t']> ts).
Proof.
  intros [] Ht Hj Hj' Hf. constructor; try done.
  - intros a0 Ha. rewrite length_alter. eauto.
  - intros i0 t0 a0 H0 Hj0. rewrite length_alter. inserted H0; [simplify_eq|]; eauto.
  - intros i0 t0 a0 H0 Hj0. inserted H0; [simplify_eq|]; eauto.
  - intros i0 i1 t0 t1 a0 H0 H1 Hj0 Hj1.
    inserted H0; inserted H1; simplify_eq; eauto.
  - intros a0 j. rewrite list_lookup_alter. case_decide as Ha; [subst a0|by eauto].
    intros _ Hq. exfalso. by eapply queue_thread0.
  - intros i0 t0 a0 j H0 Hj0. rewrite list_lookup_alter. inserted H0.
    + simplify_eq. rewrite decide_True by done.
      destruct (js !! _) as [j0|] eqn:Hjs; [|done]. intros [= <-]. eauto.
    + case_decide as Ha; [subst a0; exfalso; eauto|eauto].
  - intros a0 j. rewrite list_lookup_alter. case_decide as Ha.
    + subst a0. intros _ _ Hfree. exfalso. apply (Hfree i t'); [|done].
      apply list_lookup_insert_eq. by eapply lookup_lt_Some.
    + intros Hjs Hq Hfree. apply (free_finished0 a0 j); try done.
      intros i0 t0 H0 Hj0. destruct (decide (i = i0)) as [->|Hne]; [congruence|].
      apply (Hfree i0 t0); [by rewrite list_lookup_insert_ne|done].
Qed.

(** A thread is done with its job. *)
Lemma inv_release js q ts i t t' a f :
  inv_on js q ts → ts !! i = Some t → job_of t = Some a → job_of t' = None →
  (∀ j, js !! a = Some j → working t j → finished (f j)) →
  inv_on (alter f a js) q (<[i:=t']> ts).
Proof.
  intros [] Ht Hj Hj' Hf. constructor; try done.
  - intros a0 Ha. rewrite length_alter. eauto.
  - intros i0 t0 a0 H0 Hj0. rewrite length_alter. inserted H0; [congruence|]; eauto.
  - intros i0 t0 a0 H0 Hj0. inserted H0; [congruence|]; eauto.
  - intros i0 i1 t0 t1 a0 H0 H1 Hj0 Hj1.
    inserted H0; [congruence|]. inserted H1; [congruence|]. eauto.
  - intros a0 j. rewrite list_lookup_alter. case_decide as Ha; [subst a0|by eauto].
    intros _ Hq. exfalso. by eapply queue_thread0.
  - intros i0 t0 a0 j H0 Hj0. rewrite list_lookup_alter. inserted H0; [congruence|].
    case_decide as Ha; [subst a0; exfalso; eauto|eauto].
  - intros a0 j. rewrite list_lookup_alter. case_decide as Ha.
    + subst a0. destruct (js !! a) as [j0|] eqn:Hjs; [|done]. intros [= <-] _ _. eauto.
    + intros Hjs Hq Hfree. apply (free_finished0 a0 j); try done.
      intros i0 t0 H0 Hj0. destruct (decide (i = i0)) as [->|Hne]; [congruence|].
      apply (Hfree i0 t0); [by rewrite list_lookup_insert_ne|done].
Qed.

Lemma inv_hold_same js q ts i t t' a :
  inv_on js q ts → ts !! i = Some t → job_of t = Some a → job_of t' = Some a →
  (∀ j, working t j → working t' j) →
  inv_on js q (<[i:=t']> ts).
Proof.
  intros Hinv Ht Hj Hj' Hw.
  rewrite <- (list_alter_id (λ j, j) js a) by done.
  eapply inv_hold; eauto.
Qed.

Lemma fresh_new_job job_id file_path options now :
  fresh (new_job job_id file_path options now).
Proof. unfold fresh. simpl. naive_solver. Qed.

Lemma fresh_failed_finished j : fresh j → status j = "failed" → finished j.
Proof.
  unfold fresh, finished. intros (Hs & Hp & Hr & He & _ & Hst & Hc) Hf. right.
  rewrite Hp, Hc. split_and!; auto with lia. by intros [? ?].
Qed.

Ltac job_facts :=
  unfold fresh, working, finished, progress_at, status_at, results_at, error_at,
    started_at_at in *;
  simpl in *.

Ltac job_cases :=
  repeat match goal with
    | H : _ ∧ _ |- _ => destruct H
    | H : _ ∨ _ |- _ => destruct H
    | H : False |- _ => destruct H
    | H : status ?j = _, H' : status ?j = _ |- _ => rewrite H in H'; discriminate
    | |- _ ∧ _ => split
    | |- _ → _ => intros
    | |- ∀ _, _ => intros
    end.

Ltac job_solve :=
  job_cases; subst;
  first [ done | lia | congruence | by eauto
        | left; solve [job_solve] | right; solve [job_solve] ].

Ltac emits :=
  simpl; rewrite ?jobs_emit_progress, ?jobs_emit_complete, ?jobs_emit_error,
    ?threads_emit_progress, ?threads_emit_complete, ?threads_emit_error,
    ?queue_emit_progress, ?queue_emit_complete, ?queue_emit_error; simpl.

Lemma inv_exec s op : inv s → inv (exec s op).
Proof.
  intros Hinv. destruct op as [uuid now0 path opts|job_id| | |i env]; simpl.
  - unfold create_job, start, inv. simpl.
    destruct (running s); simpl; [|apply inv_spawn];
      apply inv_create; auto using fresh_new_job.
  - unfold cancel_job.
    destruct (active_jobs s !! job_id) as [a|]; [|done].
    destruct (jobs s !! a) as [job|] eqn:Hjob; [|done].
    case_bool_decide as Hst; [|done].
    unfold inv. simpl. apply inv_alter; [done|].
    intros j Hj. assert (j = job) as -> by congruence.
    rewrite !elem_of_cons, elem_of_nil in Hst.
    split_and!; [|intros t; destruct t|]; job_facts; job_solve.
  - unfold start. destruct (running s); [done|]. by apply inv_spawn.
  - done.
  - unfold _process_jobs.
    destruct (threads s !! i) as [t|] eqn:Ht; [|done].
    destruct t as [| |a|a|a|a|a|a|a|a df|a|a e|a e|]; simpl; try done.
    + destruct (running s); by eapply inv_idle.
    + destruct (job_queue s) as [|a q] eqn:Hq; simpl; [by eapply inv_idle|].
      unfold inv in Hinv. rewrite Hq in Hinv.
      destruct (jobs s !! a) as [job|] eqn:Hjob.
      * case_bool_decide as Hst; unfold inv; simpl.
        -- rewrite <- (list_alter_id (λ j, j) (jobs s) a) by done.
           eapply inv_pickup; eauto.
           intros j Hj Hfr. job_facts. job_solve.
        -- eapply inv_idle; eauto. eapply inv_drop; eauto.
           intros j Hj. assert (j = job) as -> by congruence.
           destruct (decide (status job = "failed")) as [Hf|Hf]; [|by destruct Hst].
           apply fresh_failed_finished; [|done].
           eapply queue_fresh; eauto. by left.
      * unfold inv; simpl. eapply inv_idle; eauto. eapply inv_drop; eauto.
        intros j Hj. congruence.
    + unfold inv; emits. eapply inv_hold; eauto. intros j _ Hw. job_facts. job_solve.
    + unfold inv; emits. eapply inv_hold; eauto. intros j _ Hw. job_facts. job_solve.
    + destruct (import_analyzer env); unfold inv; emits.
      * eapply inv_hold; eauto. intros j _ Hw. job_facts. job_solve.
      * eapply inv_hold_same; eauto. intros j Hw. job_facts. job_solve.
    + destruct (jobs s !! a) as [job|]; [|done].
      destruct (AdvancedConversationAnalyzer _ _ _ _ _ _); unfold inv; emits;
        (eapply inv_hold_same; eauto; intros j Hw; job_facts; job_solve).
    + destruct (jobs s !! a) as [job|]; [|done].
      destruct (load_data _ _); unfold inv; emits.
      * eapply inv_hold; eauto. intros j _ Hw. job_facts. job_solve.
      * eapply inv_hold_same; eauto. intros j Hw. job_facts. job_solve.
    + unfold inv; emits. eapply inv_hold; eauto. intros j _ Hw. job_facts. job_solve.
    + destruct (jobs s !! a) as [job|]; [|done].
      destruct (parse_conversations_advanced _ _); unfold inv; emits.
      * eapply inv_hold; eauto. intros j _ Hw. job_facts. job_solve.
      * eapply inv_hold_same; eauto. intros j Hw. job_facts. job_solve.
    + destruct (summary df); unfold inv; emits.
      * eapply inv_hold; eauto. intros j _ Hw. job_facts. job_solve.
      * eapply inv_hold_same; eauto. intros j Hw. job_facts. job_solve.
    + unfold inv; emits. eapply inv_release; eauto.
      intros j _ Hw. job_facts. job_solve.
    + unfold inv; emits. eapply inv_hold; eauto. intros j _ Hw. job_facts. job_solve.
    + unfold inv; emits. eapply inv_release; eauto.
      intros j _ Hw. job_facts. job_solve.
Qed.

Lemma inv_run s ops : inv s → inv (run s ops).
Proof.
  revert s. induction ops as [|op ops IH]; intros s Hinv; [done|].
  simpl. apply IH. by apply inv_exec.
Qed.

Lemma inv_reachable cfg ops : inv (run (init cfg) ops).
Proof. apply inv_run. apply inv_init. Qed.

(** *** What one operation does to one job *)

Lemma alter_step (f : AnalysisJob → AnalysisJob) (js : list AnalysisJob) (a0 a : nat) j :
  js !! a = Some j →
  ∃ j', alter f a0 js !! a = Some j' ∧ ((a0 = a ∧ j' = f j) ∨ j' = j).
Proof.
  intros Hj. rewrite list_lookup_alter. case_decide as Ha.
  - subst a0. rewrite Hj. simpl. eauto.
  - eauto.
Qed.

Ltac altered Hj :=
  match goal with
  | |- ∃ x, alter ?f ?a0 ?js !! ?a = Some x ∧ _ =>
      let jn := fresh "jn" in
      let Hjn := fresh "Hjn" in
      let Hc := fresh "Hc" in
      destruct (alter_step f js a0 a _ Hj) as (jn & Hjn & Hc);
      exists jn; (split; [exact Hjn|]);
      destruct Hc as [[-> ->]| ->]
  end.

Lemma exec_job_step s op a j :
  jobs s !! a = Some j →
  ∃ j', jobs (exec s op) !! a = Some j' ∧ job_step s a j op j'.
Proof.
  intros Hj.
  assert (∀ op, ∃ j', jobs s !! a = Some j' ∧ job_step s a j op j') as Hsame
    by (intros; exists j; split; [done|constructor]).
  destruct op as [uuid now0 path opts|job_id| | |i env]; simpl.
  - exists j. split; [|constructor].
    unfold create_job, start. simpl. destruct (running s); simpl;
      by apply lookup_app_l_Some.
  - unfold cancel_job.
    destruct (active_jobs s !! job_id) as [a0|] eqn:Ha0; [|apply Hsame].
    destruct (jobs s !! a0) as [job|] eqn:Hjob; [|apply Hsame].
    case_bool_decide as Hst; [|apply Hsame]. simpl.
    altered Hj; [|constructor].
    assert (job = j) as -> by congruence.
    rewrite !elem_of_cons, elem_of_nil in Hst.
    apply step_cancel; [done|tauto].
  - unfold start. destruct (running s); apply Hsame.
  - apply Hsame.
  - unfold _process_jobs.
    destruct (threads s !! i) as [t|] eqn:Ht; [|apply Hsame].
    destruct t as [| |a0|a0|a0|a0|a0|a0|a0|a0 df|a0|a0 e|a0 e|]; simpl;
      [| | | | | | | | | | | | |apply Hsame].
    + destruct (running s); apply Hsame.
    + destruct (job_queue s) as [|a0 q] eqn:Hq; simpl; [apply Hsame|].
      destruct (jobs s !! a0) as [job|] eqn:Hjob; [|apply Hsame].
      case_bool_decide as Hst; simpl; apply Hsame.
    + altered Hj; [|constructor]. by eapply step_processing.
    + altered Hj; [|constructor]. by eapply step_started.
    + destruct (import_analyzer env); emits; [|apply Hsame].
      altered Hj; [|constructor]. by eapply step_progress.
    + destruct (jobs s !! a0) as [job|]; [|apply Hsame].
      destruct (AdvancedConversationAnalyzer _ _ _ _ _ _); apply Hsame.
    + destruct (jobs s !! a0) as [job|]; [|apply Hsame].
      destruct (load_data _ _); emits; [|apply Hsame].
      altered Hj; [|constructor]. by eapply step_progress.
    + emits. altered Hj; [|constructor]. by eapply step_progress.
    + destruct (jobs s !! a0) as [job|]; [|apply Hsame].
      destruct (parse_conversations_advanced _ _); emits; [|apply Hsame].
      altered Hj; [|constructor]. by eapply step_progress.
    + destruct (summary df) as [r|e] eqn:Hr; emits; [|apply Hsame].
      altered Hj; [|constructor]. by eapply step_results.
    + emits. altered Hj; [|constructor]. by eapply step_completed.
    + altered Hj; [|constructor]. by eapply step_except.
    + emits. altered Hj; [|constructor]. by eapply step_failed.
Qed.

End AnalyzerProps.

(** ** The claims about the job registry *)

Module JobLifecycle.
Import Analyzer Lifecycle AnalyzerProps.

(** A job is queued, or worked on by a thread, or over. *)
Lemma job_shape js q ts a j :
  inv_on js q ts → js !! a = Some j →
  fresh j
  ∨ (∃ i t, ts !! i = Some t ∧ job_of t = Some a ∧ working t j)
  ∨ finished j.
Proof.
  intros Hinv Hj.
  destruct (decide (a ∈ q)) as [Hq|Hq]; [left; by eapply queue_fresh|].
  destruct (decide (Exists (λ t, job_of t = Some a) ts)) as [Hex|Hex].
  - right; left. apply Exists_exists in Hex as (t & [i Hi]%list_elem_of_lookup_1 & Hjo).
    exists i, t. split_and!; try done. by eapply thread_working.
  - right; right. eapply free_finished; try done.
    intros i t Hi Hjo. apply Hex, Exists_exists. exists t. split; [|done].
    by eapply list_elem_of_lookup_2.
Qed.


Lemma in_edges (x y : string) :
  (x = "pending" ∧ y = "processing") ∨ (x = "pending" ∧ y = "failed")
  ∨ (x = "processing" ∧ y = "failed") ∨ (x = "processing" ∧ y = "complete") →
  (x, y) ∈ edges.
Proof.
  unfold edges. rewrite !elem_of_cons.
  intros [[-> ->]|[[-> ->]|[[-> ->]|[-> ->]]]]; tauto.
Qed.


(** C1, as the code has it. [cancel_job] on a job that is pending or
    processing returns [True] and marks the job failed with the error
    "Cancelled by user" (the code has no cancelled status), changing
    nothing else in the job or in the service; on an unknown id and on a
    job that is complete or failed it returns [False] and changes
    nothing. *)
Theorem cancel_job_spec (s : AnalyzerService) (id : string) :
  (∀ a job,
     active_jobs s !! id = Some a → jobs s !! a = Some job →
     status job = "pending" ∨ status job = "processing" →
     (cancel_job id s).1 = true
     ∧ get_job id (cancel_job id s).2
       = Some (mkJob (job_id job) (file_path job) (options job) "failed" (progress job)
                     (current_step job) (results job) (Some "Cancelled by user")
                     (created_at job) (started_at job) (completed_at job))
     ∧ (∀ a', a' ≠ a → jobs (cancel_job id s).2 !! a' = jobs s !! a')
     ∧ job_queue (cancel_job id s).2 = job_queue s
     ∧ active_jobs (cancel_job id s).2 = active_jobs s
     ∧ threads (cancel_job id s).2 = threads s
     ∧ effects (cancel_job id s).2 = effects s)
  ∧ (get_job id s = None → cancel_job id s = (false, s))
  ∧ (∀ job, get_job id s = Some job →
            status job = "complete" ∨ status job = "failed" →
            cancel_job id s = (false, s)).
Proof.
  unfold cancel_job, get_job. split_and!.
  - intros a job Ha Hjob Hst. rewrite Ha, Hjob.
    rewrite bool_decide_eq_true_2
      by (rewrite !elem_of_cons; destruct Hst as [-> | ->]; auto).
    simpl. rewrite Ha. simpl. split_and!; try done.
    + by rewrite list_lookup_alter_eq, Hjob.
    + intros a' Hne. by rewrite list_lookup_alter_ne.
  - destruct (active_jobs s !! id) as [a|]; simpl; [|done].
    by intros ->.
  - intros job. destruct (active_jobs s !! id) as [a|]; simpl; [|done].
    intros -> Hst.
    rewrite bool_decide_eq_false_2; [done|].
    rewrite !elem_of_cons, elem_of_nil.
    destruct Hst as [-> | ->]; intros [?|[?|[]]]; discriminate.
Qed.

(** C2, as the code has it. Over any sequence of operations, however the
    requests and the steps of the workers interleave, a job's status
    changes only along pending -> processing, pending -> failed,
    processing -> failed and processing -> complete, a complete job stays
    complete, and a failed job that no worker is working on stays failed.
    There is no cancelled status: a cancelled job is a failed one. What
    becomes of a job cancelled while a worker is working on it is left
    out of this statement. *)
Theorem status_changes_along_edges cfg ops op a j :
  jobs (run (init cfg) ops) !! a = Some j →
  ∃ j', jobs (exec (run (init cfg) ops) op) !! a = Some j'
    ∧ (status j' ≠ status j →
       ¬ (status j = "failed" ∧ worked_on (run (init cfg) ops) a) →
       (status j, status j') ∈ edges)
    ∧ (status j = "complete" → status j' = "complete")
    ∧ (status j = "failed" → ¬ worked_on (run (init cfg) ops) a → status j' = "failed").
Proof.
  intros Hj. pose proof (inv_reachable cfg ops) as Hinv.
  set (s := run (init cfg) ops) in *.
  destruct (exec_job_step s op a j Hj) as (j' & Hj' & Hstep).
  exists j'. split; [done|].
  destruct Hstep as [op|id Hid Hst|i env Ht|i env Ht|i env t p m Ht Hjo Hp
                    |i env df r Ht Hr|i env Ht|i env e Ht|i env e Ht]; simpl.
  - done.
  - split_and!.
    + intros _ _. apply in_edges. tauto.
    + intros Hc. destruct Hst; congruence.
    + done.
  - assert (working (AtProcessing a) j) as (Hs & _) by (by eapply thread_working).
    split_and!.
    + intros _ Hex. apply in_edges. destruct Hs as [Hs|Hs]; [tauto|].
      destruct Hex. split; [done|]. by exists i, (AtProcessing a).
    + intros Hc. simpl in Hs. destruct Hs; congruence.
    + intros _ Hfree. destruct Hfree. by exists i, (AtProcessing a).
  - done.
  - split_and!; [done..|].
    intros _ Hfree. destruct Hfree. by exists i, t.
  - assert (working (AtResults a df) j) as (Hs & _) by (by eapply thread_working).
    split_and!; [|done|].
    + intros _ Hex. apply in_edges. destruct Hs as [Hs|Hs]; [tauto|].
      destruct Hex. split; [done|]. by exists i, (AtResults a df).
    + intros _ Hfree. destruct Hfree. by exists i, (AtResults a df).
  - done.
  - assert (working (InExcept a e) j) as (Hs & _) by (by eapply thread_working).
    split_and!; [| |done].
    + intros Hne _. apply in_edges. destruct Hs as [Hs|Hs]; [tauto|congruence].
    + intros Hc. destruct Hs; congruence.
  - done.
Qed.



(** Nothing reads the configuration. *)
Lemma exec_with_config c s op : exec (with_config c s) op = with_config c (exec s op).
Proof.
  destruct op as [uuid now0 path opts|id| | |i env]; simpl.
  - unfold create_job, start. simpl. by destruct (running s).
  - unfold cancel_job. simpl. repeat case_match; done.
  - unfold start. simpl. by destruct (running s).
  - done.
  - unfold _process_jobs, _run_analysis, _emit_progress, _emit_complete, _emit_error.
    simpl. repeat case_match; done.
Qed.

Lemma run_with_config c s ops : run (with_config c s) ops = with_config c (run s ops).
Proof.
  revert s. induction ops as [|op ops IH]; intros s; [done|].
  simpl. by rewrite exec_with_config, IH.
Qed.

Lemma run_any_config c c' ops :
  run (init c') ops = with_config c' (run (init c) ops).
Proof. by rewrite <- run_with_config. Qed.


(** *** One run of [_run_analysis], step by step *)

Lemma effects_emit_progress a p m s job :
  jobs s !! a = Some job →
  effects (_emit_progress a p m s)
  = effects s ++ [emit_progress (job_id job) p m (status job) (job_id job)].
Proof.
  intros Hjob. unfold _emit_progress. simpl.
  by rewrite (alter_lookup_same _ _ _ _ Hjob).
Qed.

Lemma thread_goto i t s : (i < length (threads s))%nat → threads (goto i t s) !! i = Some t.
Proof. intros Hi. simpl. by apply list_lookup_insert_eq. Qed.

Ltac after_step Ht :=
  split_and!;
  [ simpl; rewrite ?threads_emit_progress, ?threads_emit_complete; simpl;
    apply list_lookup_insert_eq; by eapply lookup_lt_Some
  | simpl; rewrite ?jobs_emit_progress, ?jobs_emit_complete; simpl;
    rewrite ?list_lookup_alter_eq; simpl
  | simpl ].

Lemma step_import env i a s job :
  threads s !! i = Some (AtImport a) → jobs s !! a = Some job →
  import_analyzer env = Return () →
  threads (_process_jobs env i s) !! i = Some (AtConstruct a)
  ∧ jobs (_process_jobs env i s) !! a
    = Some (set_current_step "Loading data..." (set_progress 5 job))
  ∧ effects (_process_jobs env i s)
    = effects s ++ [call_import;
                    emit_progress (job_id job) 5 "Loading data..." (status job) (job_id job)].
Proof.
  intros Ht Hjob Henv. unfold _process_jobs. rewrite Ht. simpl. rewrite Henv.
  after_step Ht.
  - by rewrite Hjob.
  - rewrite (effects_emit_progress _ _ _ _ job) by done. simpl. by rewrite <- app_assoc.
Qed.

Lemma step_construct env i a s job :
  threads s !! i = Some (AtConstruct a) → jobs s !! a = Some job →
  AdvancedConversationAnalyzer env (file_path job)
    (option_flag (options job) "enable_privacy" true)
    (option_flag (options job) "enable_quality" true)
    (option_flag (options job) "enable_temporal" true)
    (option_flag (options job) "enable_visualizations" false) = Return () →
  threads (_process_jobs env i s) !! i = Some (AtLoadData a)
  ∧ jobs (_process_jobs env i s) !! a = Some job
  ∧ effects (_process_jobs env i s)
    = effects s ++ [call_init (file_path job)
                      (option_flag (options job) "enable_privacy" true)
                      (option_flag (options job) "enable_quality" true)
                      (option_flag (options job) "enable_temporal" true)
                      (option_flag (options job) "enable_visualizations" false)].
Proof.
  intros Ht Hjob Henv. unfold _process_jobs. rewrite Ht. simpl. rewrite Hjob, Henv.
  after_step Ht; done.
Qed.

Lemma step_load_data env i a s job :
  threads s !! i = Some (AtLoadData a) → jobs s !! a = Some job →
  load_data env (file_path job) = Return () →
  threads (_process_jobs env i s) !! i = Some (AtEmit25 a)
  ∧ jobs (_process_jobs env i s) !! a
    = Some (set_current_step "Data loaded successfully" (set_progress 15 job))
  ∧ effects (_process_jobs env i s)
    = effects s ++ [call_load_data (file_path job);
                    emit_progress (job_id job) 15 "Data loaded successfully"
                                  (status job) (job_id job)].
Proof.
  intros Ht Hjob Henv. unfold _process_jobs. rewrite Ht. simpl. rewrite Hjob, Henv.
  after_step Ht.
  - by rewrite Hjob.
  - rewrite (effects_emit_progress _ _ _ _ job) by done. simpl. by rewrite <- app_assoc.
Qed.

Lemma step_emit25 env i a s job :
  threads s !! i = Some (AtEmit25 a) → jobs s !! a = Some job →
  threads (_process_jobs env i s) !! i = Some (AtParse a)
  ∧ jobs (_process_jobs env i s) !! a
    = Some (set_current_step "Analyzing conversations..." (set_progress 25 job))
  ∧ effects (_process_jobs env i s)
    = effects s ++ [emit_progress (job_id job) 25 "Analyzing conversations..."
                                  (status job) (job_id job)].
Proof.
  intros Ht Hjob. unfold _process_jobs. rewrite Ht. simpl.
  after_step Ht.
  - by rewrite Hjob.
  - by rewrite (effects_emit_progress _ _ _ _ job).
Qed.

Lemma step_parse env i a s job df :
  threads s !! i = Some (AtParse a) → jobs s !! a = Some job →
  parse_conversations_advanced env (file_path job) = Return df →
  threads (_process_jobs env i s) !! i = Some (AtResults a df)
  ∧ jobs (_process_jobs env i s) !! a
    = Some (set_current_step ("Analyzed " +:+ format_commas (len df) +:+ " messages")
              (set_progress 70 job))
  ∧ effects (_process_jobs env i s)
    = effects s ++ [call_parse (file_path job);
                    emit_progress (job_id job) 70
                      ("Analyzed " +:+ format_commas (len df) +:+ " messages")
                      (status job) (job_id job)].
Proof.
  intros Ht Hjob Henv. unfold _process_jobs. rewrite Ht. simpl. rewrite Hjob, Henv.
  after_step Ht.
  - by rewrite Hjob.
  - rewrite (effects_emit_progress _ _ _ _ job) by done. simpl. by rewrite <- app_assoc.
Qed.

Lemma step_results env i a s job df r :
  threads s !! i = Some (AtResults a df) → jobs s !! a = Some job →
  summary df = Return r →
  threads (_process_jobs env i s) !! i = Some (AtCompleted a)
  ∧ jobs (_process_jobs env i s) !! a
    = Some (set_status "complete" (set_results (Some r) job))
  ∧ effects (_process_jobs env i s) = effects s.
Proof.
  intros Ht Hjob Henv. unfold _process_jobs. rewrite Ht. simpl. rewrite Henv.
  after_step Ht.
  - by rewrite Hjob.
  - done.
Qed.

Lemma step_completed env i a s job :
  threads s !! i = Some (AtCompleted a) → jobs s !! a = Some job →
  threads (_process_jobs env i s) !! i = Some AtLoop
  ∧ jobs (_process_jobs env i s) !! a
    = Some (set_progress 100 (set_completed_at (Some (now env)) job))
  ∧ effects (_process_jobs env i s)
    = effects s ++ [emit_complete (job_id job) "complete" (job_id job)].
Proof.
  intros Ht Hjob. unfold _process_jobs. rewrite Ht. simpl.
  after_step Ht.
  - by rewrite Hjob.
  - unfold _emit_complete. simpl. by rewrite list_lookup_alter_eq, Hjob.
Qed.

(** C3, as the code has it. The runner has no cache in front of the
    analysis. Whatever the service has analysed before, a run of
    [_run_analysis] in which no collaborator raises calls the import, the
    constructor, [load_data] and [parse_conversations_advanced] on the
    job's file, once each and nothing else besides the socket.io events,
    and the job ends complete with the summary of the frame that this
    call of [parse_conversations_advanced] returned. *)
Theorem run_analysis_always_analyses s i a job e1 e2 e3 e4 e5 e6 e7 df r :
  threads s !! i = Some (AtImport a) →
  jobs s !! a = Some job →
  import_analyzer e1 = Return () →
  AdvancedConversationAnalyzer e2 (file_path job)
    (option_flag (options job) "enable_privacy" true)
    (option_flag (options job) "enable_quality" true)
    (option_flag (options job) "enable_temporal" true)
    (option_flag (options job) "enable_visualizations" false) = Return () →
  load_data e3 (file_path job) = Return () →
  parse_conversations_advanced e5 (file_path job) = Return df →
  summary df = Return r →
  effects (run s [Work i e1; Work i e2; Work i e3; Work i e4; Work i e5; Work i e6;
                  Work i e7])
  = effects s ++
    [ call_import;
      emit_progress (job_id job) 5 "Loading data..." (status job) (job_id job);
      call_init (file_path job)
        (option_flag (options job) "enable_privacy" true)
        (option_flag (options job) "enable_quality" true)
        (option_flag (options job) "enable_temporal" true)
        (option_flag (options job) "enable_visualizations" false);
      call_load_data (file_path job);
      emit_progress (job_id job) 15 "Data loaded successfully" (status job) (job_id job);
      emit_progress (job_id job) 25 "Analyzing conversations..." (status job) (job_id job);
      call_parse (file_path job);
      emit_progress (job_id job) 70
        ("Analyzed " +:+ format_commas (len df) +:+ " messages") (status job) (job_id job);
      emit_complete (job_id job) "complete" (job_id job) ]
  ∧ jobs (run s [Work i e1; Work i e2; Work i e3; Work i e4; Work i e5; Work i e6;
                 Work i e7]) !! a
    = Some (mkJob (job_id job) (file_path job) (options job) "complete" 100
                  ("Analyzed " +:+ format_commas (len df) +:+ " messages")
                  (Some r) (error job) (created_at job) (started_at job)
                  (Some (now e7)))
  ∧ threads (run s [Work i e1; Work i e2; Work i e3; Work i e4; Work i e5; Work i e6;
                    Work i e7]) !! i
    = Some AtLoop.
Proof.
  intros Ht Hjob H1 H2 H3 H5 H6. simpl.
  destruct (step_import e1 i a s job Ht Hjob H1) as (Ht1 & Hj1 & He1).
  destruct (step_construct e2 i a _ _ Ht1 Hj1 H2) as (Ht2 & Hj2 & He2).
  destruct (step_load_data e3 i a _ _ Ht2 Hj2 H3) as (Ht3 & Hj3 & He3).
  destruct (step_emit25 e4 i a _ _ Ht3 Hj3) as (Ht4 & Hj4 & He4).
  destruct (step_parse e5 i a _ _ df Ht4 Hj4 H5) as (Ht5 & Hj5 & He5).
  destruct (step_results e6 i a _ _ df r Ht5 Hj5 H6) as (Ht6 & Hj6 & He6).
  destruct (step_completed e7 i a _ _ Ht6 Hj6) as (Ht7 & Hj7 & He7).
  split_and!; [|done..].
  rewrite He7, He6, He5, He4, He3, He2, He1. simpl. by rewrite <- !app_assoc.
Qed.

(** *** The worker threads *)

Lemma running_process_jobs env i s : running (_process_jobs env i s) = running s.
Proof.
  unfold _process_jobs, _run_analysis, _emit_progress, _emit_complete, _emit_error.
  simpl. repeat case_match; done.
Qed.

Lemma length_threads_process_jobs env i s :
  length (threads (_process_jobs env i s)) = length (threads s).
Proof.
  unfold _process_jobs, _run_analysis, _emit_progress, _emit_complete, _emit_error.
  simpl. repeat case_match; simpl; by rewrite ?length_insert.
Qed.

Lemma one_thread_exec s op :
  op ≠ Stop →
  length (threads s) = (if running s then 1 else 0)%nat →
  length (threads (exec s op)) = (if running (exec s op) then 1 else 0)%nat.
Proof.
  intros Hop Hs. destruct op as [uuid now0 path opts|id| | |i env]; simpl.
  - unfold create_job, start. simpl. destruct (running s); simpl; [done|].
    rewrite length_app, Hs. done.
  - unfold cancel_job.
    destruct (active_jobs s !! id); [|done]. destruct (jobs s !! _); [|done].
    by case_bool_decide.
  - unfold start. destruct (running s) eqn:Hr; simpl; [by rewrite Hr|].
    rewrite length_app, Hs. done.
  - done.
  - by rewrite running_process_jobs, length_threads_process_jobs.
Qed.

Lemma one_thread_run s ops :
  Stop ∉ ops →
  length (threads s) = (if running s then 1 else 0)%nat →
  length (threads (run s ops)) = (if running (run s ops) then 1 else 0)%nat.
Proof.
  revert s. induction ops as [|op ops IH]; intros s Hops Hs; [done|].
  apply not_elem_of_cons in Hops as [Hop Hops].
  simpl. apply IH; [done|]. apply one_thread_exec; [congruence|done].
Qed.

(** C4, as the code has it. The queue feeds one worker loop. [start] on a
    service that is not running starts exactly one thread and on a running
    service none, so as long as the service is not stopped there is at
    most one worker thread; and the threads after any sequence of
    operations are the same under every configuration: nothing reads
    [MAX_CONCURRENT_JOBS]. *)
Theorem start_spawns_one_thread :
  (∀ s, threads (start s) = if running s then threads s else threads s ++ [AtLoop])
  ∧ (∀ cfg ops, Stop ∉ ops → (length (threads (run (init cfg) ops)) ≤ 1)%nat)
  ∧ (∀ c c' ops, threads (run (init c) ops) = threads (run (init c') ops)).
Proof.
  split_and!.
  - intros s. unfold start. by destruct (running s).
  - intros cfg ops Hops.
    rewrite (one_thread_run (init cfg) ops Hops) by done. case_match; lia.
  - intros c c' ops. by rewrite (run_any_config c c').
Qed.

End JobLifecycle.
(** ** The job registry on concrete runs *)

Module AnalyzerScenario.
Import Analyzer Lifecycle Scenario.

(** C1, counterexample. Cancelling a pending job returns [True] and leaves
    the job failed, not cancelled. *)
Lemma cancel_marks_failed_not_cancelled :
  status <$> get_job "j1" submitted = Some "pending"
  ∧ (cancel_job "j1" submitted).1 = true
  ∧ status <$> get_job "j1" (cancel_job "j1" submitted).2 = Some "failed"
  ∧ status <$> get_job "j1" (cancel_job "j1" submitted).2 ≠ Some "cancelled".
Proof. split_and!; [vm_compute; reflexivity..|vm_compute; discriminate]. Qed.

Lemma cancel_job_spec_witness :
  (cancel_job "j1" submitted).1 = true
  ∧ cancel_job "j2" submitted = (false, submitted).
Proof.
  split.
  - refine (proj1 (proj1 (JobLifecycle.cancel_job_spec submitted "j1")
                     0%nat (new_job "j1" "a.json" ∅ 0) _ _ _));
      [vm_compute; reflexivity..|left; reflexivity].
  - refine (proj1 (proj2 (JobLifecycle.cancel_job_spec submitted "j2")) _).
    vm_compute; reflexivity.
Defined.

(** C2, counterexample. A job cancelled while the worker is inside
    [_run_analysis] is failed, and the worker, which never looks at the
    status again, then marks it complete. *)
Lemma cancelled_job_is_completed :
  status <$> get_job "j1" (run (init Config.default) ops_processing) = Some "processing"
  ∧ status <$> get_job "j1" (run (init Config.default) ops_cancelled) = Some "failed"
  ∧ error <$> get_job "j1" (run (init Config.default) ops_cancelled)
    = Some (Some "Cancelled by user")
  ∧ status <$> get_job "j1" (run (init Config.default) (ops_cancelled ++ ops_rest))
    = Some "complete".
Proof. split_and!; vm_compute; reflexivity. Qed.

Lemma status_changes_along_edges_witness :
  ∃ j', jobs (exec submitted (Cancel "j1")) !! 0%nat = Some j'
        ∧ (status (new_job "j1" "a.json" ∅ 0) = "complete" → status j' = "complete").
Proof.
  destruct (JobLifecycle.status_changes_along_edges Config.default
              [Create "j1" 0 "a.json" ∅] (Cancel "j1") 0%nat
              (new_job "j1" "a.json" ∅ 0) eq_refl) as (j' & Hj' & _ & Hc & _).
  exists j'. split; [exact Hj'|exact Hc].
Defined.

(** C3, counterexample. The same document submitted a second time, after
    its first analysis is complete, is analysed a second time. *)
Lemma second_submission_analysed_again :
  status <$> get_job "j1" (run (init Config.default) ops_twice) = Some "complete"
  ∧ status <$> get_job "j2" (run (init Config.default) ops_twice) = Some "complete"
  ∧ file_path <$> get_job "j1" (run (init Config.default) ops_twice)
    = file_path <$> get_job "j2" (run (init Config.default) ops_twice)
  ∧ filter is_call_parse (effects (run (init Config.default) ops_twice))
    = [call_parse "a.json"; call_parse "a.json"].
Proof. split_and!; vm_compute; reflexivity. Qed.

Lemma run_analysis_always_analyses_witness :
  threads (run (run (init Config.default)
                    [Create "j1" 0 "a.json" ∅; work 1; work 1; work 1; work 2])
               [work 3; work 4; work 5; work 6; work 7; work 8; work 9]) !! 0%nat
  = Some AtLoop.
Proof.
  refine (proj2 (proj2
            (JobLifecycle.run_analysis_always_analyses
               (run (init Config.default)
                    [Create "j1" 0 "a.json" ∅; work 1; work 1; work 1; work 2])
               0%nat 0%nat
               (set_started_at (Some 2) (set_status "processing" (new_job "j1" "a.json" ∅ 0)))
               (analyzer_ok 3) (analyzer_ok 4) (analyzer_ok 5) (analyzer_ok 6)
               (analyzer_ok 7) (analyzer_ok 8) (analyzer_ok 9) frame3 summary3
               _ _ _ _ _ _ _)));
    reflexivity.
Defined.

(** C4, counterexample. With the default configuration, where
    [MAX_CONCURRENT_JOBS] is 2, starting the service starts one worker
    thread, and a second [start] adds none. *)
Lemma one_worker_not_two :
  Config.MAX_CONCURRENT_JOBS Config.default = 2
  ∧ threads (start (init Config.default)) = [AtLoop]
  ∧ threads (start (start (init Config.default))) = [AtLoop]
  ∧ Z.of_nat (length (threads (start (init Config.default))))
    ≠ Config.MAX_CONCURRENT_JOBS Config.default.
Proof. split_and!; [reflexivity..|vm_compute; discriminate]. Qed.

Lemma start_spawns_one_thread_witness :
  (length (threads (run (init Config.default) ops_processing)) ≤ 1)%nat.
Proof.
  refine (proj1 (proj2 JobLifecycle.start_spawns_one_thread) Config.default ops_processing _).
  intros H. unfold ops_processing in H.
  repeat (apply elem_of_cons in H as [H|H]; [discriminate H|]).
  by apply elem_of_nil in H.
Defined.







End AnalyzerScenario.
(** ** More about the cache *)

Module CacheMore.
Import Cache.

Lemma app_inj_tail (s1 s2 t : string) : s1 +:+ t = s2 +:+ t → s1 = s2.
Proof.
  revert s2. induction s1 as [|c s1 IH]; intros [|c2 s2] H.
  - done.
  - apply (f_equal String.length) in H.
    rewrite !CacheProps.length_app in H. simpl in H. lia.
  - apply (f_equal String.length) in H.
    rewrite !CacheProps.length_app in H. simpl in H. lia.
  - rewrite !CacheProps.app_cons in H. injection H as -> H. f_equal. by apply IH.
Qed.

Lemma cache_file_inj h h' : cache_file h = cache_file h' → h = h'.
Proof. apply app_inj_tail. Qed.

Ltac run_delete :=
  unfold Cache.delete, exists_, unlink, logger, raise, mbind, mret, IO_bind, IO_ret; simpl.

Lemma delete_files file_hash w :
  files (Cache.delete DeleteOk file_hash w).2 = base.delete (cache_file file_hash) (files w).
Proof.
  run_delete. destruct (files w !! cache_file file_hash) as [text|] eqn:Hf; simpl.
  - by rewrite Hf.
  - symmetry. by apply delete_id.
Qed.

Lemma delete_returns file_hash w : (Cache.delete DeleteOk file_hash w).1 = Return ().
Proof.
  run_delete. destruct (files w !! cache_file file_hash) as [text|] eqn:Hf; simpl; [|done].
  by rewrite Hf.
Qed.

Lemma delete_absent os file_hash w :
  (∀ e, os ≠ DeleteExistsFails e) →
  files w !! cache_file file_hash = None → Cache.delete os file_hash w = (Return (), w).
Proof.
  intros Hos Hf. run_delete.
  destruct os as [|e|e]; simpl; rewrite ?Hf; try done. by destruct (Hos e).
Qed.

(** Whatever becomes of it, [delete] touches no other file. *)
Lemma delete_other os file_hash w name :
  name ≠ cache_file file_hash →
  files (Cache.delete os file_hash w).2 !! name = files w !! name.
Proof.
  intros Hne. run_delete.
  destruct os as [|e|e]; simpl; try done;
    destruct (files w !! cache_file file_hash) as [text|] eqn:Hf; simpl; rewrite ?Hf;
    simpl; try done.
  by apply lookup_delete_ne.
Qed.

(** *** The loop of [clear_all] *)

Lemma unlink_each_logs refused listing w :
  logs (unlink_each refused listing w).2 = logs w.
Proof.
  revert w. induction listing as [|n rest IH]; intros w; [done|].
  simpl. unfold unlink, raise, mbind, IO_bind.
  destruct (refused n) as [e|]; [done|].
  destruct (files w !! n) as [text|]; [|done]. by rewrite IH.
Qed.

Lemma unlink_each_other refused listing w name :
  name ∉ listing → files (unlink_each refused listing w).2 !! name = files w !! name.
Proof.
  revert w. induction listing as [|n rest IH]; intros w Hn; [done|].
  apply not_elem_of_cons in Hn as [Hne Hn].
  simpl. unfold unlink, raise, mbind, IO_bind.
  destruct (refused n) as [e|]; [done|].
  destruct (files w !! n) as [text|]; [|done].
  rewrite IH by done. simpl. by apply lookup_delete_ne.
Qed.

Lemma unlink_each_done refused listing w :
  NoDup listing →
  (∀ n, n ∈ listing → refused n = None ∧ is_Some (files w !! n)) →
  (unlink_each refused listing w).1 = Return ()
  ∧ ∀ n, n ∈ listing → files (unlink_each refused listing w).2 !! n = None.
Proof.
  revert w. induction listing as [|n rest IH]; intros w Hnd Hall.
  { split; [done|]. intros n Hn. by apply elem_of_nil in Hn. }
  apply NoDup_cons in Hnd as [Hn Hnd].
  destruct (Hall n) as [Hr [text Hf]]; [by left|].
  simpl. unfold unlink, raise, mbind, IO_bind. rewrite Hr, Hf.
  set (w' := {| files := base.delete n (files w); logs := logs w |}).
  destruct (IH w' Hnd) as [Hret Hgone].
  { intros n' Hn'. destruct (Hall n') as [Hr' Hf']; [by right|]. split; [done|].
    simpl. rewrite lookup_delete_ne; [done|]. by intros ->. }
  split; [done|].
  intros n' [->|Hn']%elem_of_cons; [|by apply Hgone].
  rewrite unlink_each_other by done. simpl. apply lookup_delete_eq.
Qed.

Lemma unlink_each_refused refused listing w :
  (∃ n, n ∈ listing ∧ (is_Some (refused n) ∨ files w !! n = None)) →
  ∃ e, (unlink_each refused listing w).1 = Raise e.
Proof.
  revert w. induction listing as [|n rest IH]; intros w (n' & Hn' & Hr').
  { by apply elem_of_nil in Hn'. }
  simpl. unfold unlink, raise, mbind, IO_bind.
  destruct (refused n) as [e|] eqn:Hr; [by eauto|].
  destruct (files w !! n) as [text|] eqn:Hf; [|by eauto].
  apply IH. exists n'.
  apply elem_of_cons in Hn' as [->|Hn'].
  { rewrite Hr, Hf in Hr'. by destruct Hr' as [[? ?]|?]. }
  split; [done|]. destruct Hr' as [?|Hnone]; [by left|]. right. simpl.
  destruct (decide (n' = n)) as [->|Hne]; [apply lookup_delete_eq|].
  by rewrite lookup_delete_ne.
Qed.

Lemma get_size_unglobbed w :
  (∀ name text, files w !! name = Some text → glob_json name = false) →
  get_size w = 0.
Proof.
  unfold get_size.
  apply (map_fold_weak_ind
           (λ r m, (∀ name text, m !! name = Some text → glob_json name = false) → r = 0)).
  - done.
  - intros name text m r Hnone IH Hall.
    rewrite (Hall name text) by apply lookup_insert_eq.
    apply IH. intros name' text' Hl. apply (Hall name' text').
    rewrite lookup_insert_ne; [done|]. intros ->. congruence.
Qed.

Section WithJson.

Context {Value : Type}.
Variable json_dump : Value → string * option exn.
Variable json_load : string → result Value.

Local Abbreviation get := (Cache.get json_load).
Local Abbreviation set := (Cache.set json_dump).

(** What [get] returns depends on the entry of its digest alone. *)
Lemma get_depends_on_entry os file_hash w1 w2 :
  files w1 !! cache_file file_hash = files w2 !! cache_file file_hash →
  (get os file_hash w1).1 = (get os file_hash w2).1.
Proof.
  intros H.
  unfold Cache.get, try_except, open_read, read, exists_, logger, raise,
    mbind, mret, IO_bind, IO_ret. simpl.
  destruct os; simpl; rewrite ?H; try done;
    (destruct (files w2 !! cache_file file_hash) as [text|] eqn:Hf; simpl; [|done]);
    rewrite ?H, ?Hf; simpl; try done; by destruct (json_load text).
Qed.

(** X1. [delete] catches nothing: what [exists()] raises, and what
    [unlink()] raises on an entry that is there, reaches the caller, with
    the cache and the log as they were. When the operating system lets it
    through, [delete] removes the entry of its digest, a plain name, and
    nothing else: a [get] under that digest then misses; on a digest that
    has no entry [delete] changes nothing, not even the log, and a second
    [delete] changes no file. *)
Theorem delete_forgets os file_hash w :
  has_slash file_hash = false →
  (∀ e, Cache.delete (DeleteExistsFails e) file_hash w = (Raise e, w))
  ∧ (∀ e, is_Some (files w !! cache_file file_hash) →
          Cache.delete (UnlinkFails e) file_hash w = (Raise e, w))
  ∧ (Cache.delete DeleteOk file_hash w).1 = Return ()
  ∧ files (Cache.delete DeleteOk file_hash w).2
    = base.delete (cache_file file_hash) (files w)
  ∧ ((∀ e, os ≠ ExistsFails e) →
     (get os file_hash (Cache.delete DeleteOk file_hash w).2).1 = Return None)
  ∧ (files w !! cache_file file_hash = None → (Cache.delete DeleteOk file_hash w).2 = w)
  ∧ files (Cache.delete DeleteOk file_hash (Cache.delete DeleteOk file_hash w).2).2
    = files (Cache.delete DeleteOk file_hash w).2.
Proof.
  intros _. split_and!.
  - intros e. by run_delete.
  - intros e [text Hf]. run_delete. by rewrite Hf.
  - apply delete_returns.
  - apply delete_files.
  - intros Hos.
    destruct (CacheProps.get_outcome json_load os file_hash
                (Cache.delete DeleteOk file_hash w).2 Hos)
      as [H|(text & v & _ & Hf & _)]; [done|].
    rewrite delete_files, lookup_delete_eq in Hf. done.
  - intros Hf. by rewrite delete_absent.
  - rewrite !delete_files. apply delete_delete_eq.
Qed.

(** X2. Entries under different digests do not interfere, for digests
    that are plain names: neither a [set] nor a [delete] under one digest,
    however it goes, changes what [get] returns under another. *)
Theorem entries_independent os os' os'' h h' v w :
  has_slash h = false → has_slash h' = false →
  h ≠ h' →
  (get os h' (set os' h v w).2).1 = (get os h' w).1
  ∧ (get os h' (Cache.delete os'' h w).2).1 = (get os h' w).1.
Proof.
  intros _ _ Hne.
  assert (cache_file h' ≠ cache_file h) as Hfile
    by (intros Heq; by apply cache_file_inj in Heq).
  split; apply get_depends_on_entry.
  - by apply CacheProps.set_other.
  - by apply delete_other.
Qed.

(** X3. [clear_all] catches nothing either. When every entry that
    [*.json] lists is a file of the cache and the operating system lets
    it go, [clear_all] returns, and afterwards the cache has size 0 and
    every [get] under a digest without a slash misses. When one of the
    entries listed is not a file (a directory of such a name) or the
    operating system refuses to remove it, [clear_all] raises and does
    not log that the cache was cleared. In either case the files that
    [*.json] does not match (other names, and entries below a
    subdirectory) stay as they were. *)
Theorem clear_all_empties os refused listing file_hash name w :
  lists_json w listing →
  ((∀ n, n ∈ listing → refused n = None ∧ is_Some (files w !! n)) →
   (clear_all refused listing w).1 = Return ()
   ∧ get_size (clear_all refused listing w).2 = 0
   ∧ (has_slash file_hash = false → (∀ e, os ≠ ExistsFails e) →
      (get os file_hash (clear_all refused listing w).2).1 = Return None))
  ∧ ((∃ n, n ∈ listing ∧ (is_Some (refused n) ∨ files w !! n = None)) →
     (∃ e, (clear_all refused listing w).1 = Raise e)
     ∧ logs (clear_all refused listing w).2 = logs w)
  ∧ (glob_json name = false →
     files (clear_all refused listing w).2 !! name = files w !! name).
Proof.
  intros (Hnd & Hglob & Hlist).
  assert (files (clear_all refused listing w).2 = files (unlink_each refused listing w).2)
    as Hfiles.
  { unfold clear_all, logger, mbind, IO_bind.
    by destruct (unlink_each refused listing w) as [[[]|e] w']. }
  split_and!.
  - intros Hok.
    destruct (unlink_each_done refused listing w Hnd Hok) as [Hret Hgone].
    assert (∀ n text, files (clear_all refused listing w).2 !! n = Some text →
                      glob_json n = false) as Hleft.
    { intros n text. rewrite Hfiles. intros Hf.
      destruct (decide (n ∈ listing)) as [Hn|Hn]; [by rewrite Hgone in Hf|].
      rewrite unlink_each_other in Hf by done.
      destruct (glob_json n) eqn:Hg; [|done].
      destruct Hn. apply Hlist; by eauto. }
    split_and!.
    + unfold clear_all, logger, mbind, IO_bind.
      destruct (unlink_each refused listing w) as [[[]|e] w']; [done|]. by simpl in Hret.
    + by apply get_size_unglobbed.
    + intros Hs Hos.
      destruct (CacheProps.get_outcome json_load os file_hash
                  (clear_all refused listing w).2 Hos)
        as [H|(text & v & _ & Hf & _)]; [done|].
      apply Hleft in Hf. rewrite CacheProps.glob_json_cache_file in Hf by done. done.
  - intros Href. destruct (unlink_each_refused refused listing w Href) as [e He].
    pose proof (unlink_each_logs refused listing w) as Hlogs.
    unfold clear_all, logger, mbind, IO_bind.
    destruct (unlink_each refused listing w) as [[[]|e'] w']; simpl in *; [done|].
    split; [by eauto|done].
  - intros Hg. rewrite Hfiles. apply unlink_each_other.
    intros Hn. apply Hglob in Hn. congruence.
Qed.

(** X5. What a failed [set] leaves behind. When the file cannot be
    opened the earlier entry is still there and [get] returns what it
    returned before. When [json.dump] breaks off in the middle, or the
    write does, the file holds the text written so far in place of the
    earlier entry, so if [json] cannot read that text the next [get]
    misses, whatever was cached before. *)
Theorem failed_set_outcome os file_hash v w e n text e1 e2 :
  ((get os file_hash (set (OpenFails e) file_hash v w).2).1 = (get os file_hash w).1)
  ∧ (json_dump v = (text, Some e1) → json_load text = Raise e2 →
     (get ReadOk file_hash (set WriteOk file_hash v w).2).1 = Return None)
  ∧ (json_load (substring 0 n (json_dump v).1) = Raise e2 →
     (get ReadOk file_hash (set (WriteFails n e1) file_hash v w).2).1 = Return None).
Proof.
  split_and!.
  - apply get_depends_on_entry. by rewrite CacheProps.set_files.
  - intros Hd Hl.
    destruct (CacheProps.get_outcome json_load ReadOk file_hash
                (set WriteOk file_hash v w).2) as [H|(t & v' & _ & Hf & Hl' & _)];
      [done..|].
    rewrite CacheProps.set_files, lookup_insert_eq, Hd in Hf. simpl in Hf. congruence.
  - intros Hl.
    destruct (CacheProps.get_outcome json_load ReadOk file_hash
                (set (WriteFails n e1) file_hash v w).2)
      as [H|(t & v' & _ & Hf & Hl' & _)]; [done..|].
    rewrite CacheProps.set_files, lookup_insert_eq in Hf. congruence.
Qed.

(** X6. [set] logs exactly one record for each call: "Cached results
    for ..." at level INFO when the file was opened and the value written
    in full, and otherwise "Error writing cache: ..." at level ERROR with
    the message of the exception. *)
Theorem set_logs_one_record os file_hash v w :
  logs (set os file_hash v w).2
  = logs w ++ [match os, (json_dump v).2 with
               | WriteOk, None => (INFO, "Cached results for " +:+ file_hash)
               | WriteOk, Some e | OpenFails e, _ | WriteFails _ e, _ =>
                   (ERROR, "Error writing cache: " +:+ str e)
               end].
Proof.
  unfold Cache.set, try_except, open_write, write, set_file, logger, raise,
    mbind, mret, IO_bind, IO_ret. simpl.
  destruct (json_dump v) as [text [e|]], os; done.
Qed.

End WithJson.


End CacheMore.
(** ** The content digest *)

Module HashingProps.
Import Hashing.

Lemma substring_all (s : string) : substring 0 (String.length s) s = s.
Proof. induction s as [|c s IH]; simpl; [done|by rewrite IH]. Qed.

Lemma substring_split (n : nat) (s : string) :
  substring 0 n s +:+ substring n (String.length s - n) s = s.
Proof.
  revert n. induction s as [|c s IH]; intros [|n]; simpl; try done.
  - by rewrite substring_all.
  - rewrite CacheProps.app_cons. by rewrite IH.
Qed.

Lemma substring_rest_length (n : nat) (s : string) :
  String.length (substring n (String.length s - n) s) = (String.length s - n)%nat.
Proof.
  revert n. induction s as [|c s IH]; intros [|n]; simpl; try done.
  by rewrite substring_all.
Qed.

Lemma substring_head_empty (n : nat) (s : string) :
  substring 0 (S n) s = EmptyString → s = EmptyString.
Proof. by destruct s. Qed.

Section WithSha256.

Context {Sha : Type}.
Variable sha256 : Sha.
Variable update : Sha → string → Sha.
Variable hexdigest : Sha → string.

(** The law of [hashlib]: updating with two chunks in a row is updating
    with the two chunks joined. *)
Hypothesis update_update : ∀ sha a b, update (update sha a) b = update sha (a +:+ b).

Lemma read_loop_all fuel n sha rest :
  (String.length rest < fuel)%nat →
  read_loop update fuel (S n) sha rest
  = Some (match rest with
          | EmptyString => sha
          | String _ _ => update sha rest
          end).
Proof.
  revert sha rest. induction fuel as [|fuel IH]; intros sha rest Hfuel; [lia|].
  simpl. unfold read.
  destruct (substring 0 (S n) rest) as [|c chunk] eqn:Hchunk.
  - apply substring_head_empty in Hchunk. by subst rest.
  - pose proof (substring_split (S n) rest) as Hsplit.
    pose proof (substring_rest_length (S n) rest) as Hlen.
    rewrite Hchunk in Hsplit.
    rewrite IH by (rewrite Hlen; destruct rest; simpl in *; [done|lia]).
    f_equal.
    destruct (substring (S n) (String.length rest - S n) rest) as [|c' rest'] eqn:Hrest.
    + rewrite <- Hsplit. destruct rest; [done|].
      by replace (String c chunk +:+ EmptyString) with (String c chunk)
        by (clear; induction chunk as [|? ? IHc] in c |- *; simpl; [done|];
            rewrite CacheProps.app_cons; f_equal; apply IHc).
    + rewrite update_update, Hsplit. destruct rest; [done|done].
Qed.

(** X7. [calculate_file_hash] digests the whole file whatever its size:
    reading it in chunks of 4096 bytes until the empty read gives the
    digest of the content taken at once, and the loop is over after at
    most as many reads as the file has bytes, plus one. *)
Theorem calculate_file_hash_whole_file fuel content :
  (String.length content < fuel)%nat →
  calculate_file_hash sha256 update hexdigest fuel (Some content)
  = Some (Return (hexdigest (match content with
                             | EmptyString => sha256
                             | String _ _ => update sha256 content
                             end))).
Proof.
  intros Hfuel. unfold calculate_file_hash.
  change 4096%nat with (S 4095). by rewrite read_loop_all.
Qed.

End WithSha256.

End HashingProps.
(** ** The topic distribution *)

Module TopicsProps.
Import Topics.

Local Abbreviation ge_count := (λ x y : string * Z, y.2 ≤ x.2).

(** *** Counting *)

Lemma fold_left_fmap {A B C} (f : A → B → A) (g : C → B) (l : list C) (a : A) :
  fold_left f (map g l) a = fold_left (λ a x, f a (g x)) l a.
Proof. revert a. induction l as [|x l IH]; intros a; simpl; [done|apply IH]. Qed.

Lemma count_cells_mentions cells d :
  fold_left count_cell cells d = fold_left (λ d topic, bump topic d) (mentions cells) d.
Proof.
  revert d. induction cells as [|cell cells IH]; intros d; [done|].
  unfold mentions. simpl. fold (mentions cells).
  rewrite fold_left_app, <- IH. f_equal.
  destruct cell; try done. simpl. symmetry.
  apply (fold_left_fmap (λ d topic, bump topic d) strip).
Qed.

Lemma mentions_dropna column : mentions (dropna column) = mentions column.
Proof.
  unfold mentions, dropna. induction column as [|cell column IH]; [done|].
  rewrite filter_cons. destruct cell; simpl; by rewrite ?IH.
Qed.

Lemma distribution_unfold column :
  _get_topic_distribution column = take 10 (sorted_desc (tally (mentions column))).
Proof.
  unfold _get_topic_distribution, tally.
  by rewrite count_cells_mentions, mentions_dropna.
Qed.

Lemma tally_snoc l x : tally (l ++ [x]) = bump x (tally l).
Proof. unfold tally. by rewrite fold_left_app. Qed.

Lemma bump_keys t (d : list (string * Z)) :
  (bump t d).*1 = if decide (t ∈ d.*1) then d.*1 else d.*1 ++ [t].
Proof.
  induction d as [|[k n] d IH]; csimpl.
  - done.
  - destruct (String.eqb_spec k t) as [->|Hne]; csimpl.
    + rewrite decide_True; [done|]. by left.
    + rewrite IH. destruct (decide (t ∈ d.*1)) as [Hin|Hin].
      * rewrite decide_True; [done|]. by right.
      * rewrite decide_False; [done|]. intros [?|?]%elem_of_cons; congruence.
Qed.

Lemma elem_of_bump t (d : list (string * Z)) t' n' :
  NoDup d.*1 →
  (t', n') ∈ bump t d ↔
  (t' ≠ t ∧ (t', n') ∈ d)
  ∨ (t' = t ∧ ((∃ n, (t, n) ∈ d ∧ n' = n + 1) ∨ ((t ∉ d.*1) ∧ n' = 1))).
Proof.
  induction d as [|[k n] d IH]; csimpl; intros Hnd.
  - rewrite list_elem_of_singleton. split.
    + intros [= -> ->]. right. split; [done|]. right. split; [apply not_elem_of_nil|done].
    + intros [[_ H]|[-> [(m & H & _)|[_ ->]]]]; try done; by apply elem_of_nil in H.
  - apply NoDup_cons in Hnd as [Hk Hnd]. specialize (IH Hnd).
    assert (∀ m, (k, m) ∉ d) as Hk'.
    { intros m Hin. apply Hk, list_elem_of_fmap. by exists (k, m). }
    destruct (String.eqb_spec k t) as [->|Hne]; csimpl.
    + rewrite !elem_of_cons. split.
      * intros [Heq|Hin].
        -- simplify_eq. right. split; [reflexivity|]. left. exists n.
           split; [left|reflexivity].
        -- left. split; [|by right]. intros ->. by apply (Hk' n').
      * intros [[Hne [Heq|Hin]]|[-> [(m & [Heq|Hin]%elem_of_cons & ->)|[Hnot _]]]].
        -- by simplify_eq.
        -- by right.
        -- simplify_eq. by left.
        -- by destruct (Hk' m).
        -- destruct Hnot. by left.
    + rewrite !elem_of_cons, IH. split.
      * intros [Heq|[[Hne' Hin]|[-> [(m & Hin & ->)|[Hnot ->]]]]].
        -- simplify_eq. left. split; [done|by left].
        -- left. split; [done|by right].
        -- right. split; [done|]. left. exists m. split; [by right|done].
        -- right. split; [done|]. right. split; [|done].
           intros [?|?]; [congruence|done].
      * intros [[Hne' [Heq|Hin]]|[-> [(m & [Heq|Hin]%elem_of_cons & ->)|[Hnot ->]]]].
        -- by left.
        -- right. left. done.
        -- by simplify_eq.
        -- right. right. split; [done|]. left. eauto.
        -- right. right. split; [done|]. right. split; [|done].
           intros Hin. apply Hnot. by right.
Qed.

Lemma occurrences_snoc t l x :
  occurrences t (l ++ [x]) = occurrences t l + (if decide (x = t) then 1 else 0).
Proof.
  unfold occurrences. rewrite filter_app, length_app, filter_cons, filter_nil.
  destruct (decide (x = t)); simpl; lia.
Qed.

Lemma occurrences_absent t l : t ∉ l → occurrences t l = 0.
Proof.
  unfold occurrences. induction l as [|x l IH]; [done|].
  intros [Hne Hin]%not_elem_of_cons. rewrite filter_cons_False by congruence. auto.
Qed.

Lemma occurrences_present t l : t ∈ l → 1 ≤ occurrences t l.
Proof.
  unfold occurrences. induction l as [|x l IH]; [by intros ?%elem_of_nil|].
  intros Hin. rewrite filter_cons. destruct (decide (x = t)) as [->|Hne]; simpl; [lia|].
  apply elem_of_cons in Hin as [->|Hin]; [done|auto].
Qed.

(** The dict holds every topic named, once, with the number of times it
    is named. *)
Lemma tally_spec l :
  NoDup (tally l).*1
  ∧ ∀ t n, (t, n) ∈ tally l ↔ t ∈ l ∧ n = occurrences t l.
Proof.
  induction l as [|x l [Hnd IH]] using rev_ind.
  - split; [constructor|]. intros t n. unfold tally. simpl.
    rewrite !elem_of_nil. tauto.
  - assert (∀ t, t ∈ (tally l).*1 ↔ t ∈ l) as Hkeys.
    { intros t. rewrite list_elem_of_fmap. split.
      - intros ([t' n] & -> & Hin). by apply IH in Hin as [? _].
      - intros Hin. exists (t, occurrences t l). split; [done|]. by apply IH. }
    rewrite tally_snoc. split.
    + rewrite bump_keys. case_decide as Hin; [done|].
      apply NoDup_app. split; [done|]. split; [|apply NoDup_singleton].
      intros t Ht ->%list_elem_of_singleton. done.
    + intros t n. rewrite elem_of_bump by done.
      rewrite occurrences_snoc, elem_of_app, list_elem_of_singleton. split.
      * intros [[Hne [Hin ->]%IH]|[-> [(m & [Hin ->]%IH & ->)|[Hnot ->]]]].
        -- rewrite decide_False by congruence. split; [by left|lia].
        -- rewrite decide_True by done. split; [by left|done].
        -- rewrite decide_True by done. rewrite Hkeys in Hnot.
           rewrite occurrences_absent by done. split; [by right|done].
      * intros [Hin ->]. destruct (decide (x = t)) as [->|Hne].
        -- right. split; [done|]. destruct (decide (t ∈ l)) as [Hl|Hl].
           ++ left. exists (occurrences t l). split; [by apply IH|done].
           ++ right. rewrite Hkeys. split; [done|].
              rewrite occurrences_absent by done. done.
        -- left. split; [congruence|]. apply IH. split; [|lia].
           destruct Hin as [|]; [done|congruence].
Qed.

(** *** Sorting *)

Lemma insert_desc_perm x l : insert_desc x l ≡ₚ x :: l.
Proof.
  induction l as [|y l IH]; simpl; [done|].
  case_match; [done|]. rewrite IH. apply Permutation_swap.
Qed.

Lemma sorted_desc_perm l : sorted_desc l ≡ₚ l.
Proof.
  induction l as [|x l IH]; simpl; [done|]. by rewrite insert_desc_perm, IH.
Qed.

Lemma insert_desc_sorted x l :
  StronglySorted ge_count l → StronglySorted ge_count (insert_desc x l).
Proof.
  induction l as [|y l IH]; simpl; intros Hs.
  - repeat constructor.
  - apply StronglySorted_cons in Hs as [Hy Hs].
    destruct (Z.leb_spec y.2 x.2) as [Hle|Hgt].
    + apply StronglySorted_cons. split; [|by apply StronglySorted_cons].
      constructor; [done|]. eapply Forall_impl; [exact Hy|]. simpl. intros z Hz. lia.
    + apply StronglySorted_cons. split; [|auto].
      rewrite insert_desc_perm. constructor; [simpl; lia|done].
Qed.

Lemma sorted_desc_sorted l : StronglySorted ge_count (sorted_desc l).
Proof.
  induction l as [|x l IH]; simpl; [constructor|]. by apply insert_desc_sorted.
Qed.

(** The sort is stable: it keeps the items of one count in their order. *)
Lemma filter_insert_desc c x l :
  filter (λ z : string * Z, z.2 = c) (insert_desc x l)
  = filter (λ z : string * Z, z.2 = c) (x :: l).
Proof.
  induction l as [|y l IH]; simpl; [done|].
  destruct (Z.leb_spec y.2 x.2) as [Hle|Hgt]; [done|].
  rewrite (filter_cons _ y (insert_desc x l)), IH, !(filter_cons _ x), !(filter_cons _ y).
  destruct (decide (x.2 = c)), (decide (y.2 = c)); try done. lia.
Qed.

Lemma filter_sorted_desc c l :
  filter (λ z : string * Z, z.2 = c) (sorted_desc l)
  = filter (λ z : string * Z, z.2 = c) l.
Proof.
  induction l as [|x l IH]; simpl; [done|].
  by rewrite filter_insert_desc, !filter_cons, IH.
Qed.

(** *** Order *)

Lemma sublist_filter_mono {A} (P : A → Prop) `{!∀ x, Decision (P x)} (l1 l2 : list A) :
  l1 `sublist_of` l2 → filter P l1 `sublist_of` filter P l2.
Proof.
  induction 1 as [|x l1 l2 _ IH|x l1 l2 _ IH]; [done|..]; rewrite !filter_cons.
  - case_decide; [by constructor|done].
  - case_decide; [by apply sublist_cons|done].
Qed.

Lemma sublist_singleton {A} (x : A) (l : list A) : x ∈ l → [x] `sublist_of` l.
Proof.
  intros (l1 & l2 & ->)%list_elem_of_split.
  apply sublist_inserts_l. constructor. apply sublist_nil_l.
Qed.

Lemma sublist_pair {A} (l : list A) i j x y :
  l !! i = Some x → l !! j = Some y → (i < j)%nat → [x; y] `sublist_of` l.
Proof.
  intros Hi Hj Hlt.
  rewrite <- (take_drop_middle l i x Hi).
  apply sublist_inserts_l. constructor. apply sublist_singleton.
  apply (list_elem_of_lookup_2 _ (j - S i)). rewrite lookup_drop.
  by replace (S i + (j - S i))%nat with j by lia.
Qed.

(** The keys of the dict stand in the order in which the topics are first
    named. *)
Lemma tally_keys_order l t1 t2 :
  [t1; t2] `sublist_of` (tally l).*1 →
  ∃ k, l !! k = Some t1 ∧ t2 ∉ take (S k) l.
Proof.
  induction l as [|x l IH] using rev_ind.
  - by intros ?%sublist_nil_r.
  - destruct (tally_spec l) as [_ Hspec].
    assert (∀ t, t ∈ (tally l).*1 ↔ t ∈ l) as Hkeys.
    { intros t. rewrite list_elem_of_fmap. split.
      - intros ([t' n] & -> & Hin). by apply Hspec in Hin as [? _].
      - intros Hin. exists (t, occurrences t l). split; [done|]. by apply Hspec. }
    assert (∀ k, l !! k = Some t1 → t2 ∉ take (S k) l →
                 (l ++ [x]) !! k = Some t1 ∧ t2 ∉ take (S k) (l ++ [x])) as Hext.
    { intros k Hk Hnot. split; [by apply lookup_app_l_Some|].
      rewrite take_app_le; [done|]. apply lookup_lt_Some in Hk. lia. }
    rewrite tally_snoc, bump_keys. case_decide as Hin.
    + intros (k & Hk & Hnot)%IH. exists k. by apply Hext.
    + intros (l1 & l2 & Heq & Hl1 & Hl2)%sublist_app_r.
      apply sublist_cons_r in Hl2 as [Hl2|(l2' & -> & Hl2')].
      * apply sublist_nil_r in Hl2 as ->. rewrite app_nil_r in Heq. subst l1.
        apply IH in Hl1 as (k & Hk & Hnot). exists k. by apply Hext.
      * apply sublist_nil_r in Hl2' as ->.
        destruct l1 as [|a [|b l1]]; simplify_eq/=; [|by destruct l1].
        assert (a ∈ (tally l).*1) as Ha by (apply (sublist_subseteq _ _ Hl1); by left).
        apply Hkeys, list_elem_of_lookup_1 in Ha as [k Hk].
        exists k. apply Hext; [done|].
        intros (i & Hi & _)%elem_of_take. apply Hin, Hkeys.
        by eapply list_elem_of_lookup_2.
Qed.

(** *** The distribution *)

Lemma elem_of_distribution column x :
  x ∈ _get_topic_distribution column → x ∈ tally (mentions column).
Proof.
  rewrite distribution_unfold. intros Hin.
  rewrite <- (sorted_desc_perm (tally (mentions column))).
  by apply (sublist_subseteq _ _ (sublist_take _ 10)).
Qed.

(** X8. The topic distribution has at most ten entries, in the order of
    falling counts, and names no topic twice. *)
Theorem topic_distribution_shape column :
  (length (_get_topic_distribution column) ≤ 10)%nat
  ∧ StronglySorted (λ x y : string * Z, y.2 ≤ x.2) (_get_topic_distribution column)
  ∧ NoDup (_get_topic_distribution column).*1.
Proof.
  rewrite distribution_unfold. set (d := tally (mentions column)).
  split_and!.
  - rewrite length_take. lia.
  - pose proof (sorted_desc_sorted d) as Hs.
    rewrite <- (take_drop 10 (sorted_desc d)) in Hs.
    by apply StronglySorted_app_1_l in Hs.
  - apply (sublist_NoDup _ (sorted_desc d).*1).
    + rewrite (sorted_desc_perm d). apply tally_spec.
    + apply fmap_sublist, sublist_take.
Qed.

(** *** What [split] and [strip] give *)

Lemma split_nonempty sep s : split sep s ≠ [].
Proof. destruct s as [|c r]; simpl; [done|]. by repeat case_match. Qed.

Lemma split_concat sep s : String.concat (String sep EmptyString) (split sep s) = s.
Proof.
  induction s as [|c r IH]; [done|]. simpl.
  destruct (Ascii.eqb_spec c sep) as [->|Hne].
  - pose proof (split_nonempty sep r) as Hr.
    simpl. destruct (split sep r) as [|p ps]; [done|]. by rewrite IH.
  - pose proof (split_nonempty sep r) as Hr.
    destruct (split sep r) as [|p ps]; [done|].
    simpl in *. destruct ps as [|p' ps]; by rewrite <- IH.
Qed.

Lemma split_no_sep sep s piece : piece ∈ split sep s → has_char sep piece = false.
Proof.
  revert piece. induction s as [|c r IH]; intros piece; simpl.
  - by intros ->%list_elem_of_singleton.
  - destruct (Ascii.eqb_spec c sep) as [->|Hne].
    + intros [->|Hin]%elem_of_cons; [done|by apply IH].
    + pose proof (split_nonempty sep r) as Hr.
      destruct (split sep r) as [|p ps]; [done|].
      intros [->|Hin]%elem_of_cons.
      * simpl. rewrite (proj2 (Ascii.eqb_neq c sep)) by done.
        apply IH. by left.
      * apply IH. by right.
Qed.

Lemma lstrip_spec s :
  ∃ l, s = l +:+ lstrip s ∧ all_space l = true
       ∧ ∀ c, first_char (lstrip s) = Some c → is_space c = false.
Proof.
  induction s as [|c r (l & Heq & Hl & Hfirst)].
  - by exists EmptyString.
  - simpl. destruct (is_space c) eqn:Hc.
    + exists (String c l). rewrite CacheProps.app_cons, <- Heq. simpl.
      by rewrite Hc, Hl.
    + exists EmptyString. split_and!; try done. by intros ? [= <-].
Qed.

Lemma rstrip_spec s :
  ∃ r, s = rstrip s +:+ r ∧ all_space r = true
       ∧ ∀ c, last_char (rstrip s) = Some c → is_space c = false.
Proof.
  induction s as [|c r0 (r & Heq & Hr & Hlast)].
  - by exists EmptyString.
  - simpl. destruct (rstrip r0) as [|c1 x] eqn:Hx.
    + destruct (is_space c) eqn:Hc.
      * exists (String c r). split_and!; [by rewrite Heq|by simpl; rewrite Hc|done].
      * exists r. split_and!; [by rewrite Heq|done|]. by intros ? [= <-].
    + exists r. split_and!; [by rewrite Heq at 1|done|done].
Qed.

Lemma strip_spec s :
  ∃ l r, s = l +:+ strip s +:+ r ∧ all_space l = true ∧ all_space r = true
         ∧ trimmed (strip s).
Proof.
  destruct (lstrip_spec s) as (l & Hl & Hsl & Hfirst).
  destruct (rstrip_spec (lstrip s)) as (r & Hr & Hsr & Hlast).
  exists l, r. unfold strip.
  split; [by rewrite <- Hr|]. split; [done|]. split; [done|]. split; [|done].
  intros c Hc. apply Hfirst. rewrite Hr.
  by destruct (rstrip (lstrip s)).
Qed.

Lemma elem_of_mentions column t :
  t ∈ mentions column →
  ∃ cell piece, PyStr cell ∈ column ∧ piece ∈ split "|" cell ∧ t = strip piece.
Proof.
  induction column as [|cell column IH]; [by intros ?%elem_of_nil|].
  unfold mentions. simpl. fold (mentions column).
  intros [Ht|Ht]%elem_of_app.
  - destruct cell as [| | |topics_str| | |]; try by apply elem_of_nil in Ht.
    change (map strip (split "|" topics_str)) with (strip <$> split "|" topics_str) in Ht.
    apply list_elem_of_fmap in Ht as (piece & -> & Hpiece).
    exists topics_str, piece. split_and!; [by left|done..].
  - destruct (IH Ht) as (c & piece & Hc & Hpiece & ->).
    exists c, piece. split_and!; [by right|done..].
Qed.

(** X9. Each entry of the distribution carries the number of times its
    topic is named in the column, which is at least one. A topic is a
    piece between the bars of a string cell without the white space
    around it: it neither begins nor ends with white space, and the
    piece is the topic with nothing but white space before and after
    it; the pieces of a cell have no bar in them and, put together with
    bars, give the cell. Cells that are null or not a string name
    nothing. *)
Theorem topic_counts_exact column t n :
  (t, n) ∈ _get_topic_distribution column →
  t ∈ mentions column ∧ n = occurrences t (mentions column) ∧ 1 ≤ n
  ∧ trimmed t
  ∧ ∃ cell piece l r,
      PyStr cell ∈ column ∧ piece ∈ split "|" cell
      ∧ String.concat "|" (split "|" cell) = cell ∧ has_char "|" piece = false
      ∧ piece = l +:+ t +:+ r ∧ all_space l = true ∧ all_space r = true.
Proof.
  intros Hin%elem_of_distribution.
  apply tally_spec in Hin as [Hin ->].
  split_and!; [done..|by apply occurrences_present| |].
  - destruct (elem_of_mentions column t Hin) as (cell & piece & _ & _ & ->).
    by destruct (strip_spec piece) as (l & r & _ & _ & _ & Htrim).
  - destruct (elem_of_mentions column t Hin) as (cell & piece & Hcell & Hpiece & ->).
    destruct (strip_spec piece) as (l & r & Heq & Hl & Hr & _).
    exists cell, piece, l, r. split_and!; try done.
    + apply split_concat.
    + by eapply split_no_sep.
Qed.

(** X10. The distribution keeps the most named topics: a topic that is
    named in the column and missing from the distribution is missing
    because ten others are there, each named at least as often. *)
Theorem topic_distribution_top column t :
  t ∈ mentions column →
  t ∉ (_get_topic_distribution column).*1 →
  length (_get_topic_distribution column) = 10%nat
  ∧ ∀ t' n', (t', n') ∈ _get_topic_distribution column →
             occurrences t (mentions column) ≤ n'.
Proof.
  rewrite distribution_unfold. set (d := tally (mentions column)).
  intros Hin Hout.
  assert ((t, occurrences t (mentions column)) ∈ sorted_desc d) as Hs.
  { rewrite (sorted_desc_perm d). by apply tally_spec. }
  rewrite <- (take_drop 10 (sorted_desc d)) in Hs.
  apply elem_of_app in Hs as [Hs|Hs].
  { destruct Hout. apply list_elem_of_fmap. by eexists (_, _). }
  split.
  - apply length_take_le.
    destruct (decide (10 ≤ length (sorted_desc d))%nat) as [|Hlt]; [done|].
    rewrite drop_ge in Hs by lia. by apply elem_of_nil in Hs.
  - intros t' n' Hin'.
    pose proof (sorted_desc_sorted d) as Hsorted.
    rewrite <- (take_drop 10 (sorted_desc d)) in Hsorted.
    apply (StronglySorted_app_1_elem_of _ _ _ _ _ Hsorted Hin' Hs).
Qed.

(** X11. Topics named equally often stand in the order in which they are
    first named: of two entries with the same count, the earlier one is
    named in the column before the later one is named at all. *)
Theorem topic_ties_first_named column i j t1 t2 n :
  _get_topic_distribution column !! i = Some (t1, n) →
  _get_topic_distribution column !! j = Some (t2, n) →
  (i < j)%nat →
  ∃ k, mentions column !! k = Some t1 ∧ t2 ∉ take (S k) (mentions column).
Proof.
  rewrite distribution_unfold. set (d := tally (mentions column)).
  intros Hi Hj Hlt. apply tally_keys_order. fold d.
  assert ([(t1, n); (t2, n)] `sublist_of` sorted_desc d) as Hsub.
  { etrans; [by eapply sublist_pair|apply sublist_take]. }
  apply (sublist_filter_mono (λ z : string * Z, z.2 = n)) in Hsub.
  rewrite filter_sorted_desc in Hsub.
  rewrite !filter_cons_True, filter_nil in Hsub by done.
  change [t1; t2] with ([(t1, n); (t2, n)].*1).
  apply fmap_sublist. etrans; [exact Hsub|apply sublist_filter].
Qed.

End TopicsProps.
(** ** The upload helpers and the choice of a configuration *)

Module UploadProps.
Import Upload.

Local Abbreviation no_dot := (λ s : string, ¬ In "."%char (list_ascii_of_string s)).

Lemma after_last_dot_None filename : after_last_dot filename = None ↔ no_dot filename.
Proof.
  induction filename as [|c r IH]; simpl; [tauto|].
  destruct (after_last_dot r) as [ext|].
  - split; [done|]. intros Hno. assert (no_dot r) as Hr by tauto.
    apply IH in Hr. done.
  - destruct (Ascii.eqb_spec c ".") as [->|Hne].
    + split; [done|]. tauto.
    + split; [|done]. intros _ [Heq|Hin]; [congruence|]. by apply IH in Hin.
Qed.

Lemma after_last_dot_Some filename ext :
  after_last_dot filename = Some ext →
  ∃ stem, filename = stem +:+ "." +:+ ext ∧ no_dot ext.
Proof.
  revert ext. induction filename as [|c r IH]; intros ext; simpl; [done|].
  destruct (after_last_dot r) as [ext'|] eqn:Hr.
  - intros [= ->]. destruct (IH ext eq_refl) as (stem & -> & Hno).
    by exists (String c stem).
  - destruct (Ascii.eqb_spec c ".") as [->|Hne]; [|done].
    intros [= ->]. exists EmptyString. split; [done|]. by apply after_last_dot_None.
Qed.

Lemma after_last_dot_app stem ext :
  no_dot ext → after_last_dot (stem +:+ "." +:+ ext) = Some ext.
Proof.
  intros Hno. induction stem as [|c stem IH].
  - change (EmptyString +:+ "." +:+ ext) with (String "." ext). simpl.
    apply after_last_dot_None in Hno. by rewrite Hno.
  - rewrite CacheProps.app_cons. simpl. by rewrite IH.
Qed.

(** X12. [allowed_file] accepts exactly the names that end in a dot
    followed by "json" in any mix of upper and lower case: a name without
    a dot is refused, and only what follows the last dot counts. *)
Theorem allowed_file_spec filename :
  allowed_file filename = true ↔
  ∃ stem ext, filename = stem +:+ "." +:+ ext ∧ no_dot ext ∧ lower ext = "json".
Proof.
  unfold allowed_file, ALLOWED_EXTENSIONS. split.
  - destruct (after_last_dot filename) as [ext|] eqn:Hext; [|done].
    intros Hin%bool_decide_eq_true_1%list_elem_of_singleton.
    apply after_last_dot_Some in Hext as (stem & -> & Hno). eauto.
  - intros (stem & ext & -> & Hno & Hlow).
    rewrite after_last_dot_app by done.
    apply bool_decide_eq_true_2, list_elem_of_singleton. done.
Qed.

(** X13. [validate_json_structure] accepts exactly the objects that hold
    a list with at least one element under "conversations", whatever the
    elements are, and it gives a message exactly when it refuses. *)
Theorem validate_json_structure_spec data :
  ((validate_json_structure data).1 = true ↔
   ∃ items conversation rest,
     data = PyDict items
     ∧ dict_get "conversations" items = Some (PyList (conversation :: rest)))
  ∧ ((validate_json_structure data).1 = true ↔ (validate_json_structure data).2 = None).
Proof.
  unfold validate_json_structure.
  destruct data as [| | | | |items|]; simpl;
    try (split; split; [done|intros (? & ? & ? & ? & _); done|done|done]).
  destruct (dict_get "conversations" items) as [[| | | |[|c cs]| |]|] eqn:Hget; simpl;
    (split; split; [try done|try (intros (? & ? & ? & [= <-] & ?); congruence)|done|done]).
  intros _. eauto.
Qed.

End UploadProps.

Module SettingsProps.
Import Settings.

(** X20. [get_config] gives the production configuration only for the
    name "production", given as the argument or, without an argument, as
    [FLASK_ENV]; under every other name, known or not, and under none at
    all it gives the development configuration, with [DEBUG] on. *)
Theorem get_config_spec environ env :
  get_config environ env
  = Some (if decide (match env with
                     | Some env => env
                     | None => default "development" (environ !! "FLASK_ENV")
                     end = "production")
          then ProductionConfig else DevelopmentConfig).
Proof.
  unfold get_config. set (name := match env with Some _ => _ | None => _ end).
  change (config !! "default") with (Some DevelopmentConfig). simpl.
  unfold config.
  destruct (decide (name = "development")) as [->|Hdev]; [done|].
  rewrite lookup_insert_ne by done.
  destruct (decide (name = "production")) as [->|Hne].
  { by rewrite lookup_insert_eq. }
  rewrite lookup_insert_ne by done.
  destruct (decide (name = "default")) as [->|Hdef]; [done|].
  by rewrite lookup_singleton_ne.
Qed.

End SettingsProps.
(** ** The registry, the queue and the timestamps of the service *)

Module ServiceProps.
Import Analyzer Lifecycle Bookkeeping AnalyzerProps.

(** *** What one operation touches *)

Lemma jobs_create uuid now path opts s :
  jobs (create_job uuid now path opts s).2 = jobs s ++ [new_job uuid path opts now].
Proof. unfold create_job, start. simpl. by destruct (running s). Qed.

Lemma queue_create uuid now path opts s :
  job_queue (create_job uuid now path opts s).2 = job_queue s ++ [length (jobs s)].
Proof. unfold create_job, start. simpl. by destruct (running s). Qed.

Lemma active_jobs_exec s op :
  active_jobs (exec s op)
  = match op with
    | Create uuid _ _ _ => <[uuid := length (jobs s)]> (active_jobs s)
    | _ => active_jobs s
    end.
Proof.
  destruct op as [uuid now0 path opts|id| | |i env]; simpl.
  - unfold create_job, start. simpl. by destruct (running s).
  - unfold cancel_job. repeat case_match; done.
  - unfold start. by destruct (running s).
  - done.
  - unfold _process_jobs, _run_analysis, _emit_progress, _emit_complete, _emit_error.
    simpl. repeat case_match; done.
Qed.

Lemma length_jobs_exec s op :
  length (jobs (exec s op))
  = match op with
    | Create _ _ _ _ => S (length (jobs s))
    | _ => length (jobs s)
    end.
Proof.
  destruct op as [uuid now0 path opts|id| | |i env]; simpl.
  - unfold create_job, start. simpl.
    destruct (running s); simpl; rewrite length_app; simpl; lia.
  - unfold cancel_job. repeat case_match; simpl; by rewrite ?length_alter.
  - unfold start. by destruct (running s).
  - done.
  - unfold _process_jobs, _run_analysis.
    repeat case_match; emits; by rewrite ?length_alter.
Qed.

Lemma job_step_identity s a j op j' :
  job_step s a j op j' →
  job_id j' = job_id j ∧ file_path j' = file_path j
  ∧ options j' = options j ∧ created_at j' = created_at j.
Proof. by intros []. Qed.

(** The queue stays, gains the new job at its end, or loses its head. *)
Lemma queue_exec s op :
  job_queue (exec s op) = job_queue s
  ∨ job_queue (exec s op) = job_queue s ++ [length (jobs s)]
  ∨ (∃ a, job_queue s = a :: job_queue (exec s op)).
Proof.
  destruct op as [uuid now0 path opts|id| | |i env]; simpl.
  - right. left. unfold create_job, start. simpl. by destruct (running s).
  - left. unfold cancel_job. repeat case_match; done.
  - left. unfold start. by destruct (running s).
  - by left.
  - unfold _process_jobs.
    destruct (threads s !! i) as [t|]; [|by left].
    destruct t as [| |a|a|a|a|a|a|a|a df|a|a e|a e|]; simpl; try by left.
    + destruct (job_queue s) as [|a q] eqn:Hq; simpl; [left; by rewrite Hq|].
      right. right. exists a. by repeat case_match.
    + left. by destruct (import_analyzer env); emits.
    + left. by repeat case_match.
    + left. repeat case_match; by emits.
    + left. by emits.
    + left. repeat case_match; by emits.
    + left. by destruct (summary df); emits.
    + left. by emits.
    + left. by emits.
Qed.

Lemma worked_on_goto i t t' s0 s a :
  threads s0 = threads s → threads s !! i = Some t →
  job_of t' = None ∨ job_of t' = job_of t →
  worked_on (goto i t' s0) a → worked_on s a.
Proof.
  intros Hs Ht Hjo (k & tk & Hk & Hja). simpl in Hk. rewrite Hs in Hk.
  apply list_lookup_insert_Some in Hk as [(<- & <- & _)|[_ Hk]].
  - destruct Hjo as [Hn|He]; [congruence|]. exists i, t. by rewrite <- He.
  - by exists k, tk.
Qed.

Ltac moved :=
  match goal with
  | Hgoto : ∀ s0 t', _ → _ → worked_on (goto _ t' s0) _ → _ |- _ =>
      apply Hgoto;
      [ by rewrite ?threads_emit_progress, ?threads_emit_complete, ?threads_emit_error
      | simpl; auto ]
  end.

(** A job is worked on after an operation only if it was before, or if
    the operation is the step in which a thread takes it off the queue. *)
Lemma worked_on_exec s op a :
  worked_on (exec s op) a →
  worked_on s a
  ∨ ∃ i env q j,
      op = Work i env ∧ threads s !! i = Some InQueueGet ∧ job_queue s = a :: q
      ∧ jobs s !! a = Some j ∧ status j ≠ "failed"
      ∧ jobs (exec s op) !! a = Some j.
Proof.
  assert (∀ s0, threads s0 = threads s ++ [AtLoop] → worked_on s0 a → worked_on s a)
    as Hspawn.
  { intros s0 Hs0 (k & t & Hk & Hjo). rewrite Hs0 in Hk.
    apply lookup_app_Some in Hk as [Hk|[_ Hk]]; [by exists k, t|].
    apply list_lookup_singleton_Some in Hk as [_ <-]. done. }
  destruct op as [uuid now0 path opts|id| | |i env]; simpl.
  - intros Hw. left. revert Hw. unfold create_job, start. simpl.
    destruct (running s); [done|]. by apply Hspawn.
  - intros Hw. left. revert Hw. unfold cancel_job. by repeat case_match.
  - intros Hw. left. revert Hw. unfold start.
    destruct (running s); [done|]. by apply Hspawn.
  - intros Hw. by left.
  - unfold _process_jobs.
    destruct (threads s !! i) as [t|] eqn:Ht; [|by left].
    assert (∀ s0 t', threads s0 = threads s →
                     job_of t' = None ∨ job_of t' = job_of t →
                     worked_on (goto i t' s0) a → worked_on s a) as Hgoto.
    { intros s0 t' Hs0 Hjo. by eapply worked_on_goto. }
    destruct t as [| |a0|a0|a0|a0|a0|a0|a0|a0 df|a0|a0 e|a0 e|]; simpl;
      [| | | | | | | | | | | | |by left].
    + intros Hw. left. revert Hw. destruct (running s); apply Hgoto; auto.
    + destruct (job_queue s) as [|a0 q] eqn:Hq; simpl.
      { intros Hw. left. revert Hw. apply Hgoto; auto. }
      destruct (jobs s !! a0) as [job|] eqn:Hjob.
      2:{ intros Hw. left. revert Hw. apply Hgoto; auto. }
      case_bool_decide as Hst.
      2:{ intros Hw. left. revert Hw. apply Hgoto; auto. }
      intros (k & tk & Hk & Hjo). simpl in Hk.
      apply list_lookup_insert_Some in Hk as [(<- & <- & _)|[_ Hk]].
      * simpl in Hjo. assert (a0 = a) as -> by congruence.
        right. exists i, env, q, job. by split_and!.
      * left. by exists k, tk.
    + intros Hw. left. revert Hw. moved.
    + intros Hw. left. revert Hw. moved.
    + intros Hw. left. revert Hw. destruct (import_analyzer env); moved.
    + intros Hw. left. revert Hw.
      destruct (jobs s !! a0) as [job|]; [|done].
      destruct (AdvancedConversationAnalyzer _ _ _ _ _ _); moved.
    + intros Hw. left. revert Hw.
      destruct (jobs s !! a0) as [job|]; [|done].
      destruct (load_data _ _); moved.
    + intros Hw. left. revert Hw. moved.
    + intros Hw. left. revert Hw.
      destruct (jobs s !! a0) as [job|]; [|done].
      destruct (parse_conversations_advanced _ _); moved.
    + intros Hw. left. revert Hw. destruct (summary df); moved.
    + intros Hw. left. revert Hw. moved.
    + intros Hw. left. revert Hw. moved.
    + intros Hw. left. revert Hw. moved.
Qed.

Lemma run_app s ops ops' : run s (ops ++ ops') = run (run s ops) ops'.
Proof. apply fold_left_app. Qed.

(** What every operation keeps, given the invariant, holds after every
    sequence of operations. *)
Lemma run_keeps (P : AnalyzerService → Prop) :
  (∀ s op, inv s → P s → P (exec s op)) →
  ∀ ops s, inv s → P s → P (run s ops).
Proof.
  intros Hstep ops. induction ops as [|op ops IH]; intros s Hinv HP; [done|].
  simpl. apply IH; [by apply inv_exec|by apply Hstep].
Qed.

(** *** The registry *)

Lemma registered_init cfg : registered (init cfg).
Proof. intros id a Ha. simpl in Ha. by rewrite lookup_empty in Ha. Qed.

Lemma registered_exec s op : registered s → registered (exec s op).
Proof.
  intros Hreg id a Ha. rewrite active_jobs_exec in Ha.
  assert (active_jobs s !! id = Some a →
          ∃ j, jobs (exec s op) !! a = Some j ∧ job_id j = id) as Hold.
  { intros Ha0. destruct (Hreg id a Ha0) as (j & Hj & Hid).
    destruct (exec_job_step s op a j Hj) as (j' & Hj' & Hstep).
    exists j'. split; [done|]. apply job_step_identity in Hstep. by destruct Hstep as [-> _]. }
  destruct op as [uuid now0 path opts|id0| | |i env]; try by apply Hold.
  apply lookup_insert_Some in Ha as [[-> <-]|[Hne Ha]]; [|by apply Hold].
  exists (new_job id path opts now0). split; [|done].
  change (exec s (Create id now0 path opts)) with (create_job id now0 path opts s).2.
  rewrite jobs_create, lookup_app_r, Nat.sub_diag by done. done.
Qed.

Lemma registered_reachable cfg ops : registered (run (init cfg) ops).
Proof.
  apply (run_keeps registered); [|apply inv_init|apply registered_init].
  intros s op _. apply registered_exec.
Qed.

Lemma get_job_registered s id j : registered s → get_job id s = Some j → job_id j = id.
Proof.
  unfold get_job. intros Hreg Hget.
  destruct (active_jobs s !! id) as [a|] eqn:Ha; [|done]. simpl in Hget.
  destruct (Hreg id a Ha) as (j0 & Hj0 & Hid). congruence.
Qed.

Lemma get_job_exec s op id j :
  registered s → get_job id s = Some j →
  ∃ j', get_job id (exec s op) = Some j'
        ∧ (creates id op = false →
           job_id j' = job_id j ∧ file_path j' = file_path j
           ∧ options j' = options j ∧ created_at j' = created_at j).
Proof.
  intros Hreg Hget.
  assert (∃ a, active_jobs s !! id = Some a ∧ jobs s !! a = Some j) as (a & Ha & Hj).
  { unfold get_job in Hget. destruct (active_jobs s !! id) as [a|]; [|done]. eauto. }
  destruct (decide (creates id op = false)) as [Hcr|Hcr].
  - destruct (exec_job_step s op a j Hj) as (j' & Hj' & Hstep).
    exists j'. split; [|intros _; by eapply job_step_identity].
    unfold get_job. rewrite active_jobs_exec.
    destruct op as [uuid now0 path opts|id0| | |i env]; try by rewrite Ha.
    simpl in Hcr. apply bool_decide_eq_false_1 in Hcr.
    by rewrite lookup_insert_ne, Ha by done.
  - destruct op as [uuid now0 path opts|id0| | |i env]; try done.
    simpl in Hcr. apply not_false_is_true, bool_decide_eq_true_1 in Hcr as ->.
    pose proof (registered_exec s (Create id now0 path opts) Hreg id (length (jobs s))) as Hnew.
    rewrite active_jobs_exec, lookup_insert_eq in Hnew.
    destruct (Hnew eq_refl) as (j' & Hj' & _).
    exists j'. split; [|simpl; rewrite bool_decide_eq_true_2 by done; done].
    unfold get_job. by rewrite active_jobs_exec, lookup_insert_eq.
Qed.

Lemma get_job_run s ops id j :
  registered s → get_job id s = Some j →
  ∃ j', get_job id (run s ops) = Some j'
        ∧ (Forall (λ op, creates id op = false) ops →
           job_id j' = job_id j ∧ file_path j' = file_path j
           ∧ options j' = options j ∧ created_at j' = created_at j).
Proof.
  revert s j. induction ops as [|op ops IH]; intros s j Hreg Hget.
  { exists j. by split. }
  destruct (get_job_exec s op id j Hreg Hget) as (j1 & Hj1 & Hid1).
  destruct (IH (exec s op) j1 (registered_exec s op Hreg) Hj1) as (j' & Hj' & Hid).
  exists j'. split; [done|].
  intros Hall. apply Forall_cons in Hall as [Hop Hall].
  destruct (Hid1 Hop) as (<- & <- & <- & <-). by apply Hid.
Qed.

(** X14. [create_job] returns the identifier it drew; under it [get_job]
    finds the new job, pending and untouched; every other identifier
    leads to the job it led to before; the new job waits at the end of
    the queue, and the service is running afterwards. *)
Theorem create_job_registers cfg ops uuid now path opts :
  (create_job uuid now path opts (run (init cfg) ops)).1 = uuid
  ∧ get_job uuid (create_job uuid now path opts (run (init cfg) ops)).2
    = Some (new_job uuid path opts now)
  ∧ (∀ id, id ≠ uuid →
           get_job id (create_job uuid now path opts (run (init cfg) ops)).2
           = get_job id (run (init cfg) ops))
  ∧ job_queue (create_job uuid now path opts (run (init cfg) ops)).2
    = job_queue (run (init cfg) ops) ++ [length (jobs (run (init cfg) ops))]
  ∧ running (create_job uuid now path opts (run (init cfg) ops)).2 = true.
Proof.
  pose proof (registered_reachable cfg ops) as Hreg.
  set (s := run (init cfg) ops) in *.
  assert (active_jobs (create_job uuid now path opts s).2
          = <[uuid := length (jobs s)]> (active_jobs s)) as Hact
    by apply (active_jobs_exec s (Create uuid now path opts)).
  split_and!.
  - done.
  - unfold get_job. rewrite Hact, lookup_insert_eq, jobs_create. simpl.
    by rewrite lookup_app_r, Nat.sub_diag.
  - intros id Hne. unfold get_job. rewrite Hact, lookup_insert_ne by done.
    rewrite jobs_create.
    destruct (active_jobs s !! id) as [a|] eqn:Ha; [|done]. simpl.
    destruct (Hreg id a Ha) as (j & Hj & _).
    rewrite Hj. by apply lookup_app_l_Some.
  - apply queue_create.
  - unfold create_job, start. simpl. by destruct (running s).
Qed.

(** X15. A job that [get_job] finds bears the identifier it was asked
    for. Whatever is done to the service afterwards, [get_job] still finds
    a job under that identifier, and, unless [uuid4] draws the identifier
    again, one with the same [job_id], [file_path], [options] and
    [created_at]. *)
Theorem job_identity_kept cfg ops ops' id j :
  get_job id (run (init cfg) ops) = Some j →
  job_id j = id
  ∧ ∃ j', get_job id (run (init cfg) (ops ++ ops')) = Some j'
          ∧ (Forall (λ op, creates id op = false) ops' →
             job_id j' = id ∧ file_path j' = file_path j
             ∧ options j' = options j ∧ created_at j' = created_at j).
Proof.
  intros Hget. pose proof (registered_reachable cfg ops) as Hreg.
  pose proof (get_job_registered _ _ _ Hreg Hget) as Hid. split; [done|].
  rewrite run_app.
  destruct (get_job_run _ ops' id j Hreg Hget) as (j' & Hj' & Hkept).
  exists j'. split; [done|]. intros Hall.
  destruct (Hkept Hall) as (? & ? & ? & ?). split_and!; congruence.
Qed.

(** *** The queue *)

Lemma queue_never_regains s ops a :
  (a < length (jobs s))%nat → a ∉ job_queue s → a ∉ job_queue (run s ops).
Proof.
  revert s. induction ops as [|op ops IH]; intros s Hlt Hq; [done|].
  simpl. apply IH.
  - rewrite length_jobs_exec. destruct op; lia.
  - destruct (queue_exec s op) as [->|[->|[a0 Ha0]]]; [done| |].
    + rewrite elem_of_app, list_elem_of_singleton. intros [?|?]; [done|lia].
    + intros Hin. apply Hq. rewrite Ha0. by apply list_elem_of_further.
Qed.

(** X16. After every sequence of operations no job is queued twice, no
    job is queued while a thread works on it, and no two threads work on
    the same job; and a job that has left the queue never enters it
    again, so no job is taken up twice. *)
Theorem job_taken_once cfg ops :
  NoDup (job_queue (run (init cfg) ops))
  ∧ (∀ a, worked_on (run (init cfg) ops) a → a ∉ job_queue (run (init cfg) ops))
  ∧ (∀ i i' t t' a,
       threads (run (init cfg) ops) !! i = Some t →
       threads (run (init cfg) ops) !! i' = Some t' →
       job_of t = Some a → job_of t' = Some a → i = i')
  ∧ (∀ a j ops',
       jobs (run (init cfg) ops) !! a = Some j →
       a ∉ job_queue (run (init cfg) ops) →
       a ∉ job_queue (run (init cfg) (ops ++ ops'))).
Proof.
  pose proof (inv_reachable cfg ops) as Hinv. split_and!.
  - by destruct Hinv.
  - intros a (i & t & Ht & Hjo). by eapply queue_thread.
  - intros i i' t t' a. by eapply thread_thread.
  - intros a j ops' Hj Hq. rewrite run_app.
    apply queue_never_regains; [by eapply lookup_lt_Some|done].
Qed.

Lemma sorted_snoc (q : list nat) n :
  StronglySorted lt q → (∀ a, a ∈ q → (a < n)%nat) → StronglySorted lt (q ++ [n]).
Proof.
  induction 1 as [|a q Hq IH Hall]; intros Hlt; simpl.
  - repeat constructor.
  - constructor.
    + apply IH. intros b Hb. apply Hlt. by apply list_elem_of_further.
    + apply Forall_app. split; [done|].
      constructor; [|constructor]. apply Hlt. by apply list_elem_of_here.
Qed.

Lemma queue_sorted_exec s op :
  inv s → StronglySorted lt (job_queue s) → StronglySorted lt (job_queue (exec s op)).
Proof.
  intros Hinv Hsorted. destruct (queue_exec s op) as [->|[->|[a Ha]]]; [done| |].
  - apply sorted_snoc; [done|]. by apply queue_valid with (ts := threads s).
  - rewrite Ha in Hsorted. by apply StronglySorted_inv in Hsorted as [? _].
Qed.

(** X17. The queue holds the waiting jobs in the order in which they
    were created, the oldest first: the addresses in it, which
    [create_job] gives out in increasing order, increase strictly, and
    each of them leads to a job. *)
Theorem queue_in_creation_order cfg ops :
  StronglySorted lt (job_queue (run (init cfg) ops))
  ∧ Forall (λ a, is_Some (jobs (run (init cfg) ops) !! a)) (job_queue (run (init cfg) ops)).
Proof.
  split.
  - apply (run_keeps (λ s, StronglySorted lt (job_queue s)));
      [apply queue_sorted_exec|apply inv_init|constructor].
  - apply Forall_forall. intros a Ha. apply lookup_lt_is_Some.
    by eapply queue_valid; [apply inv_reachable|].
Qed.

(** *** Jobs that are done with *)

Lemma settled_exec s op a j :
  jobs s !! a = Some j →
  status j = "failed" ∨ (status j = "complete" ∧ a ∉ job_queue s) →
  ¬ worked_on s a →
  jobs (exec s op) !! a = Some j
  ∧ (status j = "failed" ∨ (status j = "complete" ∧ a ∉ job_queue (exec s op)))
  ∧ ¬ worked_on (exec s op) a.
Proof.
  intros Hj Hst Hfree.
  assert (∀ q, job_queue s = a :: q → status j = "failed") as Hhead.
  { intros q Hq. destruct Hst as [?|[_ Hnq]]; [done|].
    destruct Hnq. rewrite Hq. by apply list_elem_of_here. }
  split_and!.
  - destruct (exec_job_step s op a j Hj) as (j' & Hj' & Hstep).
    rewrite Hj'. f_equal.
    destruct Hstep as [op|id Hid Hs|i env Ht|i env Ht|i env t p m Ht Hjo Hp
                      |i env df r Ht Hr|i env Ht|i env e Ht|i env e Ht].
    + done.
    + destruct Hst as [Hf|[Hc _]], Hs as [Hs|Hs]; congruence.
    + destruct Hfree. by exists i, (AtProcessing a).
    + destruct Hfree. by exists i, (AtStarted a).
    + destruct Hfree. by exists i, t.
    + destruct Hfree. by exists i, (AtResults a df).
    + destruct Hfree. by exists i, (AtCompleted a).
    + destruct Hfree. by exists i, (InExcept a e).
    + destruct Hfree. by exists i, (AtFailed a e).
  - destruct Hst as [?|[Hc Hnq]]; [by left|]. right. split; [done|].
    apply (queue_never_regains s [op]); [by eapply lookup_lt_Some|done].
  - intros Hw. apply worked_on_exec in Hw as [Hw|(i & env & q & j0 & _ & _ & Hq & Hj0 & Hs & _)];
      [done|].
    apply Hs. assert (j0 = j) as -> by congruence. by eapply Hhead.
Qed.

(** X18. A job that is failed, or complete and out of the queue, and
    that no thread works on stays exactly as it is under every sequence
    of operations: a job cancelled while it waits is never analysed, and
    the results of a finished job are never replaced. *)
Theorem settled_job_never_changes s a j ops :
  jobs s !! a = Some j →
  status j = "failed" ∨ (status j = "complete" ∧ a ∉ job_queue s) →
  ¬ worked_on s a →
  jobs (run s ops) !! a = Some j ∧ ¬ worked_on (run s ops) a.
Proof.
  revert s. induction ops as [|op ops IH]; intros s Hj Hst Hfree; [done|].
  destruct (settled_exec s op a j Hj Hst Hfree) as (Hj' & Hst' & Hfree').
  simpl. by apply IH.
Qed.

(** *** The timestamps *)

(** X19. After every sequence of operations the timestamps of a job go
    with its status, up to the call of the clock that stands between the
    assignment of a status and that of its timestamp. A pending job has
    neither been started nor completed and bears no error. A job in
    processing is not completed, and it has [started_at] unless its
    worker stands at line 120, about to read the clock. A complete job
    has [started_at], and it has [completed_at] unless its worker stands
    at line 167. No job has [completed_at] without [started_at]. *)
Theorem timestamps_follow_status cfg ops a j :
  jobs (run (init cfg) ops) !! a = Some j →
  (status j = "pending" → started_at j = None ∧ completed_at j = None ∧ error j = None)
  ∧ (status j = "processing" →
     completed_at j = None
     ∧ (is_Some (started_at j)
        ∨ ∃ i, threads (run (init cfg) ops) !! i = Some (AtStarted a)))
  ∧ (status j = "complete" →
     is_Some (started_at j)
     ∧ (is_Some (completed_at j)
        ∨ ∃ i, threads (run (init cfg) ops) !! i = Some (AtCompleted a)))
  ∧ (is_Some (completed_at j) → is_Some (started_at j)).
Proof.
  intros Hj. pose proof (inv_reachable cfg ops) as Hinv.
  destruct (JobLifecycle.job_shape _ _ _ a j Hinv Hj)
    as [Hf|[(i & t & Ht & Hjo & Hw)|Hf]].
  - job_facts. destruct Hf as (Hs & _ & _ & _ & He & Hst & Hc).
    rewrite Hst, Hc. split_and!; try (by intros [? ?]).
    + auto.
    + intros Hp. destruct Hs; congruence.
    + intros Hp. destruct Hs; congruence.
  - destruct t; simplify_eq/=; job_facts;
      destruct Hw as (Hs & _ & _ & _ & _ & He & Hst & Hc); rewrite Hc;
      (split_and!; [| | |by intros [? ?]]); intros Hp;
      try (destruct Hs as [Hs|Hs]); try congruence; eauto.
  - job_facts.
    destruct Hf as [(Hs & _ & _ & Hst & Hc)|(Hs & _ & _ & _ & Hcs)];
      split_and!; try done; try (intros Hp; congruence); eauto.
Qed.

(** *** The events that end an analysis *)

Lemma last_perform x s e :
  is_last e = true → is_last x = false → e ∈ effects (perform x s) → e ∈ effects s.
Proof.
  intros He Hx. simpl. rewrite elem_of_app, list_elem_of_singleton.
  intros [?| ->]; [done|congruence].
Qed.

Lemma last_emit_progress a p m s e :
  is_last e = true → e ∈ effects (_emit_progress a p m s) → e ∈ effects s.
Proof.
  intros He. unfold _emit_progress. case_match; [|done].
  intros Hin. by apply last_perform in Hin.
Qed.

(** A last event that an operation adds comes from the step in which a
    thread leaves [_run_analysis], after it has read the clock. *)
Lemma last_exec s op e :
  is_last e = true → e ∈ effects (exec s op) →
  e ∈ effects s
  ∨ ∃ i env t a job,
      threads s !! i = Some t ∧ jobs s !! a = Some job
      ∧ threads (exec s op) = <[i := AtLoop]> (threads s)
      ∧ ((t = AtCompleted a
          ∧ e = emit_complete (job_id job) "complete" (job_id job)
          ∧ jobs (exec s op) !! a
            = Some (set_progress 100 (set_completed_at (Some (now env)) job)))
         ∨ (∃ e0, t = AtFailed a e0
                  ∧ e = emit_error (job_id job) (str e0) "failed" (job_id job)
                  ∧ jobs (exec s op) !! a
                    = Some (set_completed_at (Some (now env)) job))).
Proof.
  intros He. destruct op as [uuid now0 path opts|id| | |i env]; simpl.
  - intros Hin. left. revert Hin. unfold create_job, start. simpl. by destruct (running s).
  - intros Hin. left. revert Hin. unfold cancel_job. by repeat case_match.
  - intros Hin. left. revert Hin. unfold start. by destruct (running s).
  - intros Hin. by left.
  - unfold _process_jobs.
    destruct (threads s !! i) as [t|] eqn:Ht; [|by left].
    destruct t as [| |a|a|a|a|a|a|a|a df|a|a e0|a e0|]; simpl;
      [| | | | | | | | | | | | |by left].
    + intros Hin. left. revert Hin. by destruct (running s).
    + intros Hin. left. revert Hin. by repeat case_match.
    + intros Hin. by left.
    + intros Hin. by left.
    + intros Hin. left. revert Hin. destruct (import_analyzer env); simpl; intros Hin.
      * apply last_emit_progress in Hin; [|done]. by apply last_perform in Hin.
      * by apply last_perform in Hin.
    + intros Hin. left. revert Hin. destruct (jobs s !! a) as [job|]; [|done].
      destruct (AdvancedConversationAnalyzer _ _ _ _ _ _); simpl; intros Hin;
        by apply last_perform in Hin.
    + intros Hin. left. revert Hin. destruct (jobs s !! a) as [job|]; [|done].
      destruct (load_data _ _); simpl; intros Hin.
      * apply last_emit_progress in Hin; [|done]. by apply last_perform in Hin.
      * by apply last_perform in Hin.
    + intros Hin. left. by apply last_emit_progress in Hin.
    + intros Hin. left. revert Hin. destruct (jobs s !! a) as [job|]; [|done].
      destruct (parse_conversations_advanced _ _); simpl; intros Hin.
      * apply last_emit_progress in Hin; [|done]. by apply last_perform in Hin.
      * by apply last_perform in Hin.
    + intros Hin. left. revert Hin. by destruct (summary df).
    + unfold _emit_complete. simpl.
      destruct (jobs s !! a) as [job|] eqn:Hjob.
      * rewrite (alter_lookup_same _ _ _ _ Hjob). simpl.
        rewrite elem_of_app, list_elem_of_singleton. intros [?| ->]; [by left|].
        right. exists i, env, (AtCompleted a), a, job. split_and!; try done.
        left. split_and!; try done.
        simpl. by rewrite list_lookup_alter_eq, Hjob.
      * rewrite list_lookup_alter_eq, Hjob. simpl. by left.
    + intros Hin. by left.
    + unfold _emit_error. simpl.
      destruct (jobs s !! a) as [job|] eqn:Hjob.
      * rewrite (alter_lookup_same _ _ _ _ Hjob). simpl.
        rewrite elem_of_app, list_elem_of_singleton. intros [?| ->]; [by left|].
        right. exists i, env, (AtFailed a e0), a, job. split_and!; try done.
        right. exists e0. split_and!; try done.
        simpl. by rewrite list_lookup_alter_eq, Hjob.
      * rewrite list_lookup_alter_eq, Hjob. simpl. by left.
Qed.

Lemma settled_as_exec s op id (P : AnalysisJob → Prop) :
  (∀ j, P j → status j = "failed" ∨ status j = "complete") →
  settled_as s id P → settled_as (exec s op) id P.
Proof.
  intros HP (a & j & Hj & Hid & Hp & Hq & Hfree).
  assert (status j = "failed" ∨ status j = "complete" ∧ a ∉ job_queue s) as Hst
    by (destruct (HP j Hp); auto).
  destruct (settled_exec s op a j Hj Hst Hfree) as (Hj' & _ & Hfree').
  exists a, j. split_and!; try done.
  apply (queue_never_regains s [op]); [by eapply lookup_lt_Some|done].
Qed.

Lemma truthful_exec s op e : truthful s e → truthful (exec s op) e.
Proof.
  destruct e as [| id st room | id err st room | | | |]; simpl; try done.
  - intros (? & ? & Hs). split_and!; try done.
    eapply settled_as_exec; [|done]. intros j (? & _). by right.
  - intros (? & ? & Hs). split_and!; try done.
    eapply settled_as_exec; [|done]. intros j (? & _). by left.
Qed.

Lemma truthful_step s op :
  inv s →
  (∀ e, is_last e = true → e ∈ effects s → truthful s e) →
  ∀ e, is_last e = true → e ∈ effects (exec s op) → truthful (exec s op) e.
Proof.
  intros Hinv Hold e He Hin.
  destruct (last_exec s op e He Hin)
    as [Hin0|(i & env & t & a & job & Ht & Hjob & Hts & Hnew)].
  { apply truthful_exec. by apply Hold. }
  assert (job_of t = Some a) as Hjo
    by (destruct Hnew as [(-> & _)|(e0 & -> & _)]; done).
  assert (a ∉ job_queue (exec s op)) as Hq.
  { apply (queue_never_regains s [op]); [by eapply lookup_lt_Some|].
    by eapply queue_thread. }
  assert (¬ worked_on (exec s op) a) as Hfree.
  { intros (k & tk & Hk & Hjk). rewrite Hts in Hk.
    apply list_lookup_insert_Some in Hk as [(_ & <- & _)|[Hne Hk]]; [done|].
    apply Hne. by eapply (thread_thread _ _ _ Hinv i k t tk a). }
  pose proof (thread_working _ _ _ Hinv i t a job Ht Hjo Hjob) as Hw.
  destruct Hnew as [(-> & -> & Hjob')|(e0 & -> & -> & Hjob')]; job_facts;
    destruct Hw as (Hs & _ & Hr & _ & Herr & _).
  - split_and!; try done. eexists a, _. by split_and!.
  - split_and!; try done. eexists a, _. by split_and!.
Qed.

(** X21. What the two last events say stays true. After every sequence
    of operations, a "complete" event that was sent carries the status
    "complete" and goes to the room of its job, and a job with that
    identifier is complete, at 100, with results; an "error" event that
    was sent carries the status "failed", and a job with that identifier
    is failed with the error that the event gave. Nothing that is done
    to the service afterwards changes this. *)
Theorem last_events_stay_true cfg ops ops' :
  (∀ id st room,
     emit_complete id st room ∈ effects (run (init cfg) ops) →
     st = "complete" ∧ room = id
     ∧ ∃ a j, jobs (run (init cfg) (ops ++ ops')) !! a = Some j ∧ job_id j = id
              ∧ status j = "complete" ∧ progress j = 100 ∧ is_Some (results j))
  ∧ (∀ id err st room,
       emit_error id err st room ∈ effects (run (init cfg) ops) →
       st = "failed" ∧ room = id
       ∧ ∃ a j, jobs (run (init cfg) (ops ++ ops')) !! a = Some j ∧ job_id j = id
                ∧ status j = "failed" ∧ error j = Some err).
Proof.
  assert (∀ e, is_last e = true → e ∈ effects (run (init cfg) ops) →
               truthful (run (init cfg) (ops ++ ops')) e) as Htrue.
  { intros e He Hin. rewrite run_app.
    assert (truthful (run (init cfg) ops) e) as Ht.
    { revert e He Hin.
      apply (run_keeps (λ s, ∀ e, is_last e = true → e ∈ effects s → truthful s e));
        [intros s op; apply truthful_step|apply inv_init|].
      intros e _ Hin. simpl in Hin. by apply elem_of_nil in Hin. }
    clear Hin. generalize (run (init cfg) ops) Ht. clear Ht.
    induction ops' as [|op ops' IH]; intros s Ht; [done|].
    simpl. apply IH. by apply truthful_exec. }
  split.
  - intros id st room Hin.
    destruct (Htrue (emit_complete id st room) eq_refl Hin)
      as (? & ? & a & j & ? & ? & (? & ? & ?) & _).
    split_and!; try done. by exists a, j.
  - intros id err st room Hin.
    destruct (Htrue (emit_error id err st room) eq_refl Hin)
      as (? & ? & a & j & ? & ? & (? & ?) & _).
    split_and!; try done. by exists a, j.
Qed.

End ServiceProps.
(** ** The further properties on concrete inputs *)

Module CacheScenario2.
Import Cache Scenario.

Lemma delete_forgets_witness :
  Cache.delete (UnlinkFails (Exception "Permission denied")) "d1" cache_corrupt
  = (Raise (Exception "Permission denied"), cache_corrupt)
  ∧ (Cache.delete DeleteOk "d1" cache_empty).2 = cache_empty.
Proof.
  split.
  - refine (proj1 (proj2
              (CacheMore.delete_forgets MiniJson.load ReadOk "d1" cache_corrupt eq_refl))
              (Exception "Permission denied") _).
    vm_compute. eauto.
  - refine (proj1 (proj2 (proj2 (proj2 (proj2 (proj2
              (CacheMore.delete_forgets MiniJson.load ReadOk "d1" cache_empty
                 eq_refl)))))) _).
    reflexivity.
Defined.

Lemma entries_independent_witness :
  (Cache.get MiniJson.load ReadOk "d1"
     (Cache.set MiniJson.dump WriteOk "d2" summary3 cache_corrupt).2).1
  = (Cache.get MiniJson.load ReadOk "d1" cache_corrupt).1.
Proof.
  refine (proj1 (CacheMore.entries_independent MiniJson.dump MiniJson.load ReadOk WriteOk
                   DeleteOk "d2" "d1" summary3 cache_corrupt _ _ _));
    [reflexivity..|discriminate].
Defined.

Lemma lists_json_cache_corrupt : lists_json cache_corrupt ["d1.json"].
Proof.
  split_and!; [apply NoDup_singleton| |].
  - by intros name ->%list_elem_of_singleton.
  - intros name [text Hf] _. simpl in Hf.
    apply lookup_singleton_Some in Hf as [<- _]. apply list_elem_of_here.
Qed.

Lemma clear_all_empties_witness :
  ((clear_all (λ _, None) ["d1.json"] cache_corrupt).1 = Return ()
   ∧ get_size (clear_all (λ _, None) ["d1.json"] cache_corrupt).2 = 0)
  ∧ ∃ e, (clear_all (λ _, Some (Exception "Permission denied")) ["d1.json"]
            cache_corrupt).1 = Raise e.
Proof.
  split.
  - destruct (proj1 (CacheMore.clear_all_empties MiniJson.load ReadOk (λ _, None)
                       ["d1.json"] "d1" "notes.txt" cache_corrupt
                       lists_json_cache_corrupt)) as (Hret & Hsize & _).
    { intros n ->%list_elem_of_singleton. split; [reflexivity|by eexists]. }
    split; [exact Hret|exact Hsize].
  - refine (proj1 (proj1 (proj2
              (CacheMore.clear_all_empties MiniJson.load ReadOk
                 (λ _, Some (Exception "Permission denied")) ["d1.json"] "d1" "notes.txt"
                 cache_corrupt lists_json_cache_corrupt)) _)).
    exists "d1.json". split; [apply list_elem_of_here|left; by eexists].
Defined.


Lemma failed_set_outcome_witness :
  (Cache.get MiniJson.load ReadOk "d1"
     (Cache.set MiniJson.dump (WriteFails 4 (Exception "No space left on device")) "d1"
        summary3 cache_empty).2).1
  = Return None.
Proof.
  refine (proj2 (proj2
            (CacheMore.failed_set_outcome MiniJson.dump MiniJson.load ReadOk "d1" summary3
               cache_empty (Exception "Permission denied") 4 EmptyString
               (Exception "No space left on device") (Exception "Expecting value"))) _).
  vm_compute; reflexivity.
Defined.

End CacheScenario2.

Module HashingScenario.
Import Hashing Scenario Scenario2.

Lemma code_sum_app a b : code_sum (a +:+ b) = code_sum a + code_sum b.
Proof.
  induction a as [|c a IH]; [done|].
  rewrite CacheProps.app_cons. simpl. rewrite IH. lia.
Qed.

Lemma checksum_update_update sha a b :
  checksum_update (checksum_update sha a) b = checksum_update sha (a +:+ b).
Proof. unfold checksum_update. rewrite code_sum_app. lia. Qed.

Lemma calculate_file_hash_whole_file_witness :
  calculate_file_hash 0 checksum_update checksum_hexdigest 4101 (Some two_chunks)
  = Some (Return (checksum_hexdigest (checksum_update 0 two_chunks))).
Proof.
  refine (HashingProps.calculate_file_hash_whole_file 0 checksum_update checksum_hexdigest
            checksum_update_update 4101 two_chunks _).
  unfold two_chunks. rewrite MiniJsonProps.length_string_repeat. lia.
Defined.

End HashingScenario.

Module TopicsScenario.
Import Topics Scenario2.

Lemma topic_counts_exact_witness :
  "art" ∈ mentions topics_column ∧ 3 = occurrences "art" (mentions topics_column) ∧ 1 ≤ 3
  ∧ trimmed "art".
Proof.
  destruct (TopicsProps.topic_counts_exact topics_column "art" 3) as (H1 & H2 & H3 & H4 & _).
  - vm_compute. apply list_elem_of_here.
  - split_and!; [exact H1|exact H2|exact H3|exact H4].
Defined.

Lemma topic_distribution_top_witness :
  length (_get_topic_distribution topics_eleven) = 10%nat
  ∧ ∀ t' n', (t', n') ∈ _get_topic_distribution topics_eleven →
             occurrences "k" (mentions topics_eleven) ≤ n'.
Proof.
  refine (TopicsProps.topic_distribution_top topics_eleven "k" _ _).
  - vm_compute. do 10 apply list_elem_of_further. apply list_elem_of_here.
  - intros H%list_elem_of_In. vm_compute in H.
    repeat (destruct H as [H|H]; [discriminate|]). done.
Defined.

Lemma topic_ties_first_named_witness :
  ∃ k, mentions topics_column !! k = Some "code"
       ∧ "math" ∉ take (S k) (mentions topics_column).
Proof.
  refine (TopicsProps.topic_ties_first_named topics_column 1 2 "code" "math" 2 _ _ _);
    [reflexivity..|lia].
Defined.

End TopicsScenario.

Module UploadScenario.
Import Upload Scenario2.

Lemma allowed_file_spec_witness : allowed_file "chat.Export.JSON" = true.
Proof.
  refine (proj2 (UploadProps.allowed_file_spec "chat.Export.JSON") _).
  exists "chat.Export", "JSON". split_and!; [reflexivity| |reflexivity].
  simpl. intros [H|[H|[H|[H|[]]]]]; discriminate.
Defined.

Lemma validate_json_structure_spec_witness : (validate_json_structure export_ok).1 = true.
Proof.
  refine (proj2 (proj1 (UploadProps.validate_json_structure_spec export_ok)) _).
  eexists _, _, _. split; reflexivity.
Defined.

End UploadScenario.

Module ServiceScenario.
Import Analyzer Lifecycle Bookkeeping Scenario Scenario2.

Lemma create_job_registers_witness :
  get_job "j1" (create_job "j2" 1 "b.json" ∅ (run (init Config.default)
                                                 [Create "j1" 0 "a.json" ∅])).2
  = get_job "j1" (run (init Config.default) [Create "j1" 0 "a.json" ∅]).
Proof.
  refine (proj1 (proj2 (proj2
            (ServiceProps.create_job_registers Config.default [Create "j1" 0 "a.json" ∅]
               "j2" 1 "b.json" ∅))) "j1" _).
  discriminate.
Defined.

Lemma job_identity_kept_witness :
  ∃ j', get_job "j1" (run (init Config.default)
                        ([Create "j1" 0 "a.json" ∅] ++ [work 1; work 2; Cancel "j1"]))
        = Some j'
        ∧ job_id j' = "j1" ∧ file_path j' = "a.json" ∧ created_at j' = 0.
Proof.
  destruct (ServiceProps.job_identity_kept Config.default [Create "j1" 0 "a.json" ∅]
              [work 1; work 2; Cancel "j1"] "j1" (new_job "j1" "a.json" ∅ 0) eq_refl)
    as (_ & j' & Hj' & Hkept).
  exists j'. split; [exact Hj'|].
  destruct Hkept as (Hid & Hpath & _ & Hcreated); [by repeat constructor|].
  split_and!; [exact Hid|exact Hpath|exact Hcreated].
Defined.

Lemma job_taken_once_witness :
  0%nat ∉ job_queue (run (init Config.default) (ops_processing ++ ops_rest)).
Proof.
  refine (proj2 (proj2 (proj2
            (ServiceProps.job_taken_once Config.default ops_processing)))
            0%nat
            (set_current_step "Loading data..."
               (set_progress 5
                  (set_started_at (Some 2)
                     (set_status "processing" (new_job "j1" "a.json" ∅ 0)))))
            ops_rest _ _).
  - reflexivity.
  - vm_compute. apply not_elem_of_nil.
Defined.

Lemma settled_job_never_changes_witness :
  jobs (run cancelled_waiting ops_after_cancel) !! 0%nat
  = Some (set_error (Some "Cancelled by user")
            (set_status "failed" (new_job "j1" "a.json" ∅ 0)))
  ∧ ¬ worked_on (run cancelled_waiting ops_after_cancel) 0.
Proof.
  refine (ServiceProps.settled_job_never_changes cancelled_waiting 0%nat _
            ops_after_cancel _ _ _).
  - reflexivity.
  - left. reflexivity.
  - intros (i & t & Ht & Hjo). destruct i as [|i]; vm_compute in Ht.
    + injection Ht as <-. discriminate Hjo.
    + discriminate Ht.
Defined.

Lemma timestamps_follow_status_witness :
  completed_at (set_status "processing" (new_job "j1" "a.json" ∅ 0)) = None
  ∧ (is_Some (started_at (set_status "processing" (new_job "j1" "a.json" ∅ 0)))
     ∨ ∃ i, threads (run (init Config.default)
                       [Create "j1" 0 "a.json" ∅; work 1; work 1; work 1]) !! i
            = Some (AtStarted 0)).
Proof.
  refine (proj1 (proj2 (ServiceProps.timestamps_follow_status Config.default
                          [Create "j1" 0 "a.json" ∅; work 1; work 1; work 1] 0%nat
                          (set_status "processing" (new_job "j1" "a.json" ∅ 0)) _)) _);
    reflexivity.
Defined.

Lemma last_events_stay_true_witness :
  ∃ a j, jobs (run (init Config.default) (ops_slow ++ [Cancel "j1"; work 10001])) !! a
         = Some j
         ∧ job_id j = "j1" ∧ status j = "complete" ∧ progress j = 100
         ∧ is_Some (results j).
Proof.
  refine (proj2 (proj2 (proj1
            (ServiceProps.last_events_stay_true Config.default ops_slow
               [Cancel "j1"; work 10001])
            "j1" "complete" "j1" _))).
  vm_compute. do 8 apply list_elem_of_further. apply list_elem_of_here.
Defined.

End ServiceScenario.
